(** * EventPlayer: the virtual clock and event scheduler of FleetDashboard.jsx

    A shallow embedding of the [EventPlayer] class (src/FleetDashboard.jsx,
    lines 42-116) and of the dashboard's [stepForward] (lines 226-238),
    with the properties of the replay engine proved over it; then of the
    rest of the dashboard that computes: the handlers and the effect of
    the component (lines 188-224 and 245-288), [deriveFleetState] (lines
    119-156), the marker table of [MapPanel] (lines 394-397) and the
    figures of [TripCard] (lines 445-459).

    Conventions of the embedding.
    - A JavaScript [Date] is represented by its time value: a whole number
      of milliseconds, or NaN for an Invalid Date ([time], [None] = NaN).
      [new Date(number)] is [TimeClip]: truncation towards zero, and NaN
      beyond 8.64e15 ms.
    - [new Date(e.timestamp)] is not re-implemented: a record is read
      through the function [date], which gives the time value that parsing
      its [timestamp] field yields.
    - [Date.now()] is an input: every read of the wall clock is an explicit
      argument of the method that performs it, in program order.
    - A finite number is a rational: [speed] holds the exact value of the
      double.  The product and the sum of [getSimTime] are taken exactly,
      where the engine rounds each of them to the nearest double.  Rounding
      leaves a whole number of magnitude up to 2^53 as it is, and never
      moves a value across one ([safe_integer]); so the two agree whenever
      speed, product and sum are such whole numbers, and for any speed
      they lie between the same whole-number bounds.  With a fractional
      speed they can differ by one millisecond (at speed 0.7, 10 ms after
      the anchor, the engine rounds the product to 7 where the exact
      product of the double is just below 7), and for clock values
      beyond 2^51 ms so can they at the quarter and half speeds of the
      dashboard.  What is stated below
      about the value of the clock is either an identity between two
      readings, a whole-number case, or a bound that rounding preserves.
    - The callbacks [onTick] and [onEvent] are observed as a trace of
      [signal]s; [setInterval] is observed as the instants at which its
      callback runs while the handle is set.
    - The methods are written once, over any representation of the array
      [this.events] ([elems]) and of its records ([date]).  They are used
      over a plain list of records ([constructor]) and over a store in
      which arrays and records are shared objects ([Heap]); the two agree
      ([heap_exec_view], [heap_constructor_view]). *)

From Stdlib Require Import ZArith QArith Qround Qabs Lia.
From stdpp Require Import base option list sorting gmap strings.
Close Scope Q_scope.

(** ** JavaScript numbers and dates *)

(** The time value of a [Date]; [None] is NaN (an Invalid Date). *)
Definition time : Type := option Z.

(** A number that may have a fractional part; [None] is NaN. *)
Definition number : Type := option Q.

(** ECMAScript: a time value lies within 8.64e15 ms of the epoch. *)
Definition maxTime : Z := 8640000000000000.


(** ECMAScript [truncate]: rounding towards zero. *)
Definition Qtrunc (q : Q) : Z :=
  if Qle_bool 0 q then Qfloor q else Qceiling q.

(** ECMAScript [TimeClip], which [new Date(number)] applies. *)
Definition TimeClip (v : number) : time :=
  match v with
  | Some q =>
      if Qle_bool (Qabs q) (inject_Z maxTime) then Some (Qtrunc q) else None
  | None => None
  end.

Definition ofTime (t : time) : number := inject_Z <$> t.

(** [new Date(v)] for a numeric argument. *)
Definition newDate (v : number) : time := TimeClip v.

Definition num_add (a b : number) : number :=
  match a, b with
  | Some x, Some y => Some (x + y)%Q
  | _, _ => None
  end.

(** [d1 - d2] on two dates. *)
Definition date_sub (a b : time) : option Z :=
  match a, b with
  | Some x, Some y => Some (x - y)%Z
  | _, _ => None
  end.

(** [d1 <= d2], [d1 >= d2] and [d1 > d2] on two dates: a comparison with
    NaN is false. *)
Definition date_le (a b : time) : bool :=
  match a, b with
  | Some x, Some y => (x <=? y)%Z
  | _, _ => false
  end.

Definition date_ge (a b : time) : bool := date_le b a.

Definition date_gt (a b : time) : bool :=
  match a, b with
  | Some x, Some y => (y <? x)%Z
  | _, _ => false
  end.

(** A value that is the time value of some [Date]: NaN or in range. *)
Definition date_value (t : time) : Prop :=
  match t with
  | Some z => (Z.abs z <= maxTime)%Z
  | None => True
  end.

(** ** Event records *)

Record event : Type := Event {
  timestamp : time;       (* time value of [new Date(e.timestamp)] *)
  event_type : string;
  trip_id : string
}.

#[global] Instance event_eq_dec : EqDecision event.
Proof. solve_decision. Defined.

(** ** Arrays *)

Module Array.

Section Ops.
Context {R : Type}.

(** [findIndex]: [None] stands for -1. *)
Fixpoint findIndex (f : R → bool) (l : list R) : option nat :=
  match l with
  | [] => None
  | x :: l' => if f x then Some 0 else S <$> findIndex f l'
  end.

(** [SortCompare] of ECMAScript: a NaN from the comparator counts
    as +0. *)
Definition SortCompare (compareFn : R → R → option Z) (a b : R) : Z :=
  default 0%Z (compareFn a b).

(** [sort(compareFn)] as a stable insertion sort.  The language
    requires the sort to be stable, so for a consistent comparator the
    result does not depend on the algorithm (see [stable_sort_unique]);
    [compareFn] below is consistent when every timestamp parses, and
    also when every comparison answers NaN or 0.  On a log that mixes
    parsed timestamps with one that does not parse the comparator is
    not consistent and the order is left to the engine: there this
    definition gives the order of one conforming algorithm. *)
Fixpoint insert (compareFn : R → R → option Z) (x : R) (l : list R)
  : list R :=
  match l with
  | [] => [x]
  | y :: l' =>
      if (0 <? SortCompare compareFn x y)%Z
      then y :: insert compareFn x l'
      else x :: y :: l'
  end.

Fixpoint sort (compareFn : R → R → option Z) (l : list R) : list R :=
  match l with
  | [] => []
  | x :: l' => insert compareFn x (sort compareFn l')
  end.
End Ops.

End Array.

(** ** The player object *)

(** The handle [setInterval] returns: a non-zero id, hence truthy. *)
Definition handle : Type := positive.

(** The fields of an [EventPlayer]; [A] is the representation of the
    array [this.events]. *)
Record EventPlayer (A : Type) : Type := Player {
  events : A;
  speed : Q;
  timer : option handle;
  baseReal : option Z;
  baseSim : time;
  pointer : nat;
  simNow : time
}.

Arguments Player {A}.
Arguments events {A}.
Arguments speed {A}.
Arguments timer {A}.
Arguments baseReal {A}.
Arguments baseSim {A}.
Arguments pointer {A}.
Arguments simNow {A}.

(** What the player sends to its two callbacks. *)
Inductive signal (R : Type) : Type :=
| onTick (now : time)
| onEvent (e : R).

Arguments onTick {R}.
Arguments onEvent {R}.

Definition delivered {R : Type} (tr : list (signal R)) : list R :=
  omap (λ s, match s with onEvent e => Some e | onTick _ => None end) tr.

Definition fmap_signal {R1 R2 : Type} (g : R1 → R2) (s : signal R1)
    : signal R2 :=
  match s with
  | onTick t => onTick t
  | onEvent r => onEvent (g r)
  end.

Section Methods.
Context {A R : Type}.

(** [elems a] is the content of the array [a]; [date e] is the time
    value of [new Date(e.timestamp)]. *)
Variable elems : A → list R.
Variable date : R → time.

Definition compareFn (a b : R) : option Z := date_sub (date a) (date b).

(** The fields the constructor sets once [this.events] holds the sorted
    copy [evs]; [now] is the [Date.now()] read for an empty log. *)
Definition init (evs : A) (startTime : option time) (speed0 : Q)
    (now : Z) : EventPlayer A :=
  let baseSim0 : time :=
    match startTime with
    | Some t => t
    | None =>
        match elems evs with
        | e :: _ => date e
        | [] => Some now
        end
    end in
  {| events := evs; speed := speed0; timer := None; baseReal := None;
     baseSim := baseSim0; pointer := 0;
     simNow := newDate (ofTime baseSim0) |}.

(** [now] is the [Date.now()] read when the anchor is set ([!this.baseReal]
    holds for [null] and for 0).  Product and sum are exact here and
    rounded to doubles by the engine. *)
Definition getSimTime (now : Z) (p : EventPlayer A) : time :=
  match baseReal p with
  | Some a =>
      if (a =? 0)%Z then newDate (ofTime (baseSim p))
      else
        let elapsedReal := (now - a)%Z in
        let elapsedSim := (inject_Z elapsedReal * speed p)%Q in
        newDate (num_add (ofTime (baseSim p)) (Some elapsedSim))
  | None => newDate (ofTime (baseSim p))
  end.

(** [now1] is read inside [getSimTime], [now2] by [this.baseReal =
    Date.now()]. *)
Definition setSpeed (now1 now2 : Z) (s : Q) (p : EventPlayer A)
    : EventPlayer A :=
  let simNow' := getSimTime now1 p in
  {| events := events p; speed := s; timer := timer p;
     baseReal := Some now2; baseSim := simNow'; pointer := pointer p;
     simNow := simNow' |}.

(** [s = None] is a call without argument (the default [this.speed]);
    [h] is the handle [setInterval] returns when it is called. *)
Definition play (now1 now2 now3 : Z) (h : handle) (s : option Q)
    (p : EventPlayer A) : EventPlayer A :=
  let p1 := setSpeed now1 now2 (default (speed p) s) p in
  match timer p1 with
  | Some _ => p1
  | None =>
      {| events := events p1; speed := speed p1; timer := Some h;
         baseReal := Some now3; baseSim := baseSim p1;
         pointer := pointer p1; simNow := simNow p1 |}
  end.

Definition pause (p : EventPlayer A) : EventPlayer A :=
  match timer p with
  | Some _ =>
      {| events := events p; speed := speed p; timer := None;
         baseReal := baseReal p; baseSim := baseSim p;
         pointer := pointer p; simNow := simNow p |}
  | None => p
  end.

(** [t] is the time value of [new Date(iso)]. *)
Definition seek (now : Z) (t : time) (p : EventPlayer A) : EventPlayer A :=
  let simNow' := newDate (ofTime t) in
  let pointer' :=
    match Array.findIndex (λ e, date_ge (date e) simNow')
            (elems (events p)) with
    | Some i => i
    | None => length (elems (events p))
    end in
  {| events := events p; speed := speed p; timer := timer p;
     baseReal := Some now; baseSim := t; pointer := pointer';
     simNow := simNow' |}.

(** The [while] loop of [_tick]; [pending] is [this.events] from index
    [ptr] on.  It returns the final pointer and the [onEvent] calls. *)
Fixpoint tick_loop (now : time) (pending : list R) (ptr : nat)
    : nat * list (signal R) :=
  match pending with
  | [] => (ptr, [])
  | e :: rest =>
      if date_le (date e) now
      then let '(ptr', out) := tick_loop now rest (S ptr) in
           (ptr', onEvent e :: out)
      else (ptr, [])
  end.

Definition _tick (now : Z) (p : EventPlayer A)
    : EventPlayer A * list (signal R) :=
  let t := getSimTime now p in
  let '(ptr, out) :=
    tick_loop t (drop (pointer p) (elems (events p))) (pointer p) in
  let p1 :=
    {| events := events p; speed := speed p; timer := timer p;
       baseReal := baseReal p; baseSim := baseSim p; pointer := ptr;
       simNow := t |} in
  (if bool_decide (length (elems (events p)) ≤ ptr) then pause p1 else p1,
   onTick t :: out).

(** The interval timer: its callback runs at the wall-clock instants
    [ws], as long as the interval has not been cleared. *)
Definition fire (now : Z) (p : EventPlayer A)
    : EventPlayer A * list (signal R) :=
  match timer p with
  | Some _ => _tick now p
  | None => (p, [])
  end.

Fixpoint run_ticks (ws : list Z) (p : EventPlayer A)
    : EventPlayer A * list (signal R) :=
  match ws with
  | [] => (p, [])
  | w :: ws' =>
      let '(p1, out1) := fire w p in
      let '(p2, out2) := run_ticks ws' p1 in
      (p2, out1 ++ out2)
  end.

(** *** The dashboard's step button *)

Record Dashboard : Type := {
  player : option (EventPlayer A);
  simTime : option time;
  activity : list R
}.

(** [now1] is read by the first [getSimTime], [now2] by [seek] and
    [now3] by the second [getSimTime]. *)
Definition stepForward (now1 now2 now3 : Z) (d : Dashboard) : Dashboard :=
  match player d with
  | None => d
  | Some pl =>
      let pl1 := pause pl in
      let now := getSimTime now1 pl1 in
      match Array.findIndex (λ e, date_gt (date e) now)
              (elems (events pl1)) with
      | Some nextIndex =>
          match elems (events pl1) !! nextIndex with
          | Some e =>
              let pl2 := seek now2 (date e) pl1 in
              {| player := Some pl2;
                 simTime := Some (getSimTime now3 pl2);
                 activity := take 300 (e :: activity d) |}
          | None => {| player := Some pl1; simTime := simTime d;
                       activity := activity d |}
          end
      | None => {| player := Some pl1; simTime := simTime d;
                   activity := activity d |}
      end
  end.

(** The button pressed once for each triple of wall-clock readings. *)
Fixpoint step_all (nows : list (Z * Z * Z)) (d : Dashboard) : Dashboard :=
  match nows with
  | [] => d
  | (now1, now2, now3) :: nows' =>
      step_all nows' (stepForward now1 now2 now3 d)
  end.

(** *** The control surface *)

(** The calls a player receives: the five methods of the class, and the
    interval timer running its callback. *)
Inductive call : Type :=
| Play (now1 now2 now3 : Z) (h : handle) (s : option Q)
| Pause
| SetSpeed (now1 now2 : Z) (s : Q)
| Seek (now : Z) (t : time)
| Tick (now : Z).

(** A call gives the next state and the callbacks it invoked. *)
Definition exec (c : call) (p : EventPlayer A)
    : EventPlayer A * list (signal R) :=
  match c with
  | Play now1 now2 now3 h s => (play now1 now2 now3 h s p, [])
  | Pause => (pause p, [])
  | SetSpeed now1 now2 s => (setSpeed now1 now2 s p, [])
  | Seek now t => (seek now t p, [])
  | Tick now => fire now p
  end.

Fixpoint exec_all (cs : list call) (p : EventPlayer A)
    : EventPlayer A * list (signal R) :=
  match cs with
  | [] => (p, [])
  | c :: cs' =>
      let '(p1, out1) := exec c p in
      let '(p2, out2) := exec_all cs' p1 in
      (p2, out1 ++ out2)
  end.

End Methods.


(** ** The player over a list of records *)

(** [new EventPlayer(events, {startTime, speed})]: [events.slice()] copies
    the list and [sort] orders the copy.  [startTime = None] is an omitted
    or falsy option, [Some t] the time value of [new Date(startTime)]. *)
Definition constructor (log : list event) (startTime : option time)
    (speed0 : Q) (now : Z) : EventPlayer (list event) :=
  init id timestamp (Array.sort (compareFn timestamp) log) startTime speed0
    now.

(** ** A small log *)

Definition ev_start : event :=
  Event (Some 0%Z) "trip_started"%string "trip_1"%string.
Definition ev_ping : event :=
  Event (Some 4000%Z) "location_ping"%string "trip_1"%string.
Definition ev_complete : event :=
  Event (Some 10000%Z) "trip_completed"%string "trip_1"%string.

(** A record whose timestamp does not parse. *)
Definition ev_bad : event :=
  Event None "location_ping"%string "trip_2"%string.

Definition sample_log : list event := [ev_complete; ev_start; ev_ping].


(** ** The player over a store of objects

    In the program an array and a record are objects, held by reference:
    the caller's list, the records in it and the player's own
    [this.events] live in one store and may be shared.  [Heap] places the
    player in such a store; [view] relates it to the player over a list of
    records above. *)

Module Heap.

Definition loc : Type := positive.

(** Arrays hold references to records. *)
Record store : Type := Store {
  arrays : gmap loc (list loc);
  objects : gmap loc event
}.

(** The content of the array at [a]. *)
Definition elems (σ : store) (a : loc) : list loc :=
  default [] (arrays σ !! a).

(** The record at [r].  Every reference the program holds is to a live
    object; for a reference outside the store the model reads a record
    without timestamp. *)
Definition obj (σ : store) (r : loc) : event :=
  default (Event None EmptyString EmptyString) (objects σ !! r).

(** [new Date(e.timestamp)] for the record at [r]. *)
Definition date (σ : store) (r : loc) : time := timestamp (obj σ r).

(** [a.slice()]: a new array with the elements of [a]. *)
Definition slice (σ : store) (a : loc) : loc * store :=
  let b := fresh (dom (arrays σ)) in
  (b, {| arrays := <[b := elems σ a]> (arrays σ); objects := objects σ |}).

(** [a.sort(compareFn)]: sorts the array at [a] in place. *)
Definition sort (σ : store) (a : loc) : store :=
  {| arrays := <[a := Array.sort (compareFn (date σ)) (elems σ a)]> (arrays σ);
     objects := objects σ |}.

(** [new EventPlayer(events, {startTime, speed})] with [events] the array
    at [input]. *)
Definition constructor (σ : store) (input : loc) (startTime : option time)
    (speed0 : Q) (now : Z) : EventPlayer loc * store :=
  let '(b, σ1) := slice σ input in
  let σ2 := sort σ1 b in
  (init (elems σ2) (date σ2) b startTime speed0 now, σ2).

(** A call on the player: the methods read [this.events] and the records
    through the store. *)
Definition exec (c : call) (st : EventPlayer loc * store)
    : EventPlayer loc * store * list (signal loc) :=
  let '(p, σ) := st in
  let '(p', out) := exec (elems σ) (date σ) c p in
  (p', σ, out).

Fixpoint exec_all (cs : list call) (st : EventPlayer loc * store)
    : EventPlayer loc * store * list (signal loc) :=
  match cs with
  | [] => (st, [])
  | c :: cs' =>
      let '(st1, out1) := exec c st in
      let '(st2, out2) := exec_all cs' st1 in
      (st2, out1 ++ out2)
  end.

(** The step button. *)
Definition stepForward (now1 now2 now3 : Z)
    (st : @Dashboard loc loc * store) : @Dashboard loc loc * store :=
  let '(d, σ) := st in
  (stepForward (elems σ) (date σ) now1 now2 now3 d, σ).

(** What the caller of the constructor can observe of its own data: its
    list and every record. *)
Definition caller_data (σ : store) (input : loc)
    : option (list loc) * gmap loc event :=
  (arrays σ !! input, objects σ).

(** The list of records an array stands for. *)
Definition view (σ : store) (a : loc) : list event := obj σ <$> elems σ a.

(** The player over the list of records that [p] stands for. *)
Definition view_player (σ : store) (p : EventPlayer loc)
    : EventPlayer (list event) :=
  {| events := view σ (events p); speed := speed p; timer := timer p;
     baseReal := baseReal p; baseSim := baseSim p; pointer := pointer p;
     simNow := simNow p |}.

Definition view_signal (σ : store) (s : signal loc) : signal event :=
  fmap_signal (obj σ) s.

(** A store with the sample log, out of order, as the caller's list. *)
Definition sample_store : store :=
  {| arrays := {[ 1%positive := [12; 10; 11]%positive ]};
     objects := {[ 10%positive := ev_start; 11%positive := ev_ping;
                   12%positive := ev_complete ]} |}.

End Heap.


(** ** The vocabulary of the specification *)

Section Vocabulary.
Context {R : Type}.
Variable date : R → time.

(** The record's timestamp parses. *)
Definition well_formed (e : R) : Prop := is_Some (date e).

(** "Sorted ascending by timestamp". *)
Definition ascending (l : list R) : Prop :=
  StronglySorted (λ a b, date_le (date a) (date b) = true) l.

(** The records of [l] that carry the timestamp [t], in the order of [l]. *)
Definition with_date (t : time) (l : list R) : list R :=
  filter (λ e, date e = t) l.

(** "The log sorted ascending by timestamp, with ties kept in original
    input order": [l'] rearranges [l], is ascending, and lists the records
    of every timestamp in the order [l] has them. *)
Definition stable_sort_of (l l' : list R) : Prop :=
  l' ≡ₚ l ∧ ascending l' ∧ ∀ t, with_date t l' = with_date t l.

End Vocabulary.


(** ** Invariants of the scheduler *)

Section Invariants.
Context {A R : Type}.
Variable elems : A → list R.

(** What a tick of the interval timer leaves fixed, and what it moves. *)
Record tick_step (p p' : EventPlayer A) (out : list R) (k : nat) : Prop := {
  step_pointer : pointer p' = pointer p + k;
  step_bound : k ≤ length (drop (pointer p) (elems (events p)));
  step_out : out = take k (drop (pointer p) (elems (events p)));
  step_events : events p' = events p;
  step_speed : speed p' = speed p;
  step_baseReal : baseReal p' = baseReal p;
  step_baseSim : baseSim p' = baseSim p;
  step_timer :
    timer p' = timer p ∨
    (timer p' = None ∧ length (elems (events p)) ≤ pointer p');
  step_idle : timer p = None → p' = p ∧ k = 0
}.

End Invariants.


(** ** The claims of the specification that the code does not meet *)


(** "Calling [play()] a second time while already running leaves the
    scheduler state identical to a single call": the first call is made at
    the instant [first], the second at [second]. *)
Definition second_play_is_noop {A : Type} (p : EventPlayer A)
    (first second : Z) (h h' : handle) : Prop :=
  play second second second h' None (play first first first h None p) =
  play first first first h None p.

(** "Called repeatedly from the initial state of a non-empty log, the step
    delivers every event of the log (including the first) in order,
    exactly one per call": after as many calls as the log has records, the
    activity list, which is newest first, holds the whole sorted log. *)
Definition steps_visit_every_event (log : list event)
    (startTime : option time) (speed0 : Q) (c : Z)
    (nows : list (Z * Z * Z)) : Prop :=
  let d0 := {| player := Some (constructor log startTime speed0 c);
               simTime := None; activity := [] |} in
  length nows = length log →
  activity (step_all id timestamp nows d0) =
    reverse (Array.sort (compareFn timestamp) log).

(** "Every well-formed record is still delivered when due": after the
    ticks [ws] of a play-through, each record of the log whose timestamp
    parses and is not later than the simulated time of the last tick has
    been passed to [onEvent]. *)
Definition delivers_well_formed_when_due (log : list event)
    (startTime : option time) (speed0 : Q) (c start : Z) (h : handle)
    (ws : list Z) : Prop :=
  let p0 := play start start start h None (constructor log startTime speed0 c)
  in
  let r := run_ticks id timestamp ws p0 in
  ∀ e, e ∈ log → well_formed timestamp e →
       date_le (timestamp e) (simNow r.1) = true → e ∈ delivered r.2.


(** ** Reading a trace *)

Section Traces.
Context {R : Type}.
Variable date : R → time.

(** Every [onEvent] of the trace comes after an [onTick], and its record
    is not later than the time of the last [onTick] before it; [cur] is
    the time of the last [onTick] so far (NaN when there was none). *)
Fixpoint deliveries_due (cur : time) (tr : list (signal R)) : Prop :=
  match tr with
  | [] => True
  | onTick t :: tr' => deliveries_due t tr'
  | onEvent e :: tr' => date_le (date e) cur = true ∧ deliveries_due cur tr'
  end.

End Traces.


(** ** The dashboard component

    [FleetDashboard] (lines 159-238 and the handlers in its markup, lines
    245-288) keeps its state in React state variables; a handler runs to
    completion before the next one starts, and the effect on [speed] and
    [player] (lines 206-208) runs before the next handler. *)

Section Component.
Context {A R : Type}.
Variable elems : A → list R.
Variable date : R → time.

(** The state the handlers read and write: [ui] holds [player],
    [simTime] and [activity]; [speedSel] is the state variable [speed]. *)
Record App : Type := {
  ui : @Dashboard A R;
  isPlaying : bool;
  speedSel : Q;
  mergedEvents : list R
}.

(** The callbacks the player is built with (lines 195-196): [onTick] is
    [setSimTime], [onEvent] puts the record in front of the activity list
    and keeps 300 entries. *)
Definition on_signal (d : @Dashboard A R) (s : signal R) : @Dashboard A R :=
  match s with
  | onTick t =>
      {| player := player d; simTime := Some t; activity := activity d |}
  | onEvent ev =>
      {| player := player d; simTime := simTime d;
         activity := take 300 (ev :: activity d) |}
  end.

(** The interval timer running the callback of the player. *)
Definition timerTick (now : Z) (a : App) : App :=
  match player (ui a) with
  | None => a
  | Some pl =>
      let '(pl', tr) := fire elems date now pl in
      {| ui := foldl on_signal
                 {| player := Some pl'; simTime := simTime (ui a);
                    activity := activity (ui a) |} tr;
         isPlaying := isPlaying a; speedSel := speedSel a;
         mergedEvents := mergedEvents a |}
  end.

Definition togglePlay (now1 now2 now3 : Z) (h : handle) (a : App) : App :=
  match player (ui a) with
  | None => a
  | Some pl =>
      if isPlaying a then
        {| ui := {| player := Some (pause pl); simTime := simTime (ui a);
                    activity := activity (ui a) |};
           isPlaying := false; speedSel := speedSel a;
           mergedEvents := mergedEvents a |}
      else
        {| ui := {| player :=
                      Some (play now1 now2 now3 h (Some (speedSel a)) pl);
                    simTime := simTime (ui a);
                    activity := activity (ui a) |};
           isPlaying := true; speedSel := speedSel a;
           mergedEvents := mergedEvents a |}
  end.

(** The Reset button (lines 256-263).  [mergedEvents[0]?.timestamp] is
    [undefined] for an empty list, and [new Date(undefined)] is an Invalid
    Date. *)
Definition reset (now : Z) (a : App) : App :=
  match player (ui a) with
  | None => a
  | Some pl =>
      let t := match mergedEvents a with
               | e :: _ => date e
               | [] => None
               end in
      {| ui := {| player := Some (seek elems date now t (pause pl));
                  simTime := simTime (ui a); activity := [] |};
         isPlaying := false; speedSel := speedSel a;
         mergedEvents := mergedEvents a |}
  end.

(** The Step button. *)
Definition step (now1 now2 now3 : Z) (a : App) : App :=
  {| ui := stepForward elems date now1 now2 now3 (ui a);
     isPlaying := isPlaying a; speedSel := speedSel a;
     mergedEvents := mergedEvents a |}.

(** The speed selector (lines 278-281) and the effect that follows the
    change of [speed] (lines 206-208).  Setting a state variable to the
    value it has renders nothing and runs no effect. *)
Definition selectSpeed (s : Q) (now1 now2 : Z) (a : App) : App :=
  if Qeq_bool s (speedSel a) then a
  else
    {| ui := {| player := setSpeed now1 now2 s <$> player (ui a);
                simTime := simTime (ui a); activity := activity (ui a) |};
       isPlaying := isPlaying a; speedSel := s;
       mergedEvents := mergedEvents a |}.

(** What happens to the component once it is loaded. *)
Inductive action : Type :=
| TogglePlay (now1 now2 now3 : Z) (h : handle)
| Reset (now : Z)
| Step (now1 now2 now3 : Z)
| SelectSpeed (s : Q) (now1 now2 : Z)
| TimerTick (now : Z).

Definition act (x : action) (a : App) : App :=
  match x with
  | TogglePlay now1 now2 now3 h => togglePlay now1 now2 now3 h a
  | Reset now => reset now a
  | Step now1 now2 now3 => step now1 now2 now3 a
  | SelectSpeed s now1 now2 => selectSpeed s now1 now2 a
  | TimerTick now => timerTick now a
  end.

Definition act_all (xs : list action) (a : App) : App :=
  foldl (λ a x, act x a) a xs.

(** What the handlers keep true: the activity list has at most 300
    entries, the flag [isPlaying] is set whenever the interval runs, and
    the pointer is within the log. *)
Definition app_ok (a : App) : Prop :=
  length (activity (ui a)) ≤ 300 ∧
  match player (ui a) with
  | Some pl =>
      (is_Some (timer pl) → isPlaying a = true) ∧
      pointer pl ≤ length (elems (events pl))
  | None => isPlaying a = false
  end.

End Component.

(** A loaded file (line 181): [tripId] and the records read from it. *)
Record trip : Type := Trip {
  tripId : option string;
  trip_events : option (list event);
  filename : string
}.

(** [t.events || []]. *)
Definition events_of (t : trip) : list event := default [] (trip_events t).

(** The end of [load] (lines 188-201) and the first run of the effect on
    [player] (lines 206-208): the records of all files are merged and
    sorted, and the player, if the list is not empty, is built on it with
    the first timestamp as start time and then given the speed 1 by
    [setSpeed].  [c] is read by the constructor, [now1] and [now2] by
    [setSpeed].  (A timestamp that parses is a non-empty string; for one
    that does not, the string is taken to be non-empty.) *)
Definition loaded (results : list trip) (c now1 now2 : Z)
    : @App (list event) event :=
  let all := Array.sort (compareFn timestamp) (results ≫= events_of) in
  {| ui := {| player :=
                match all with
                | [] => None
                | e :: _ =>
                    Some (setSpeed now1 now2 1%Q
                            (constructor all (Some (timestamp e)) 1%Q c))
                end;
              simTime := None; activity := [] |};
     isPlaying := false; speedSel := 1%Q; mergedEvents := all |}.


(** ** The views computed from the data

    [deriveFleetState] (lines 119-156), the marker table of [MapPanel]
    (lines 394-397) and the figures of [TripCard] (lines 445-459). *)

(** [filter((e) => e.event_type === "location_ping")]. *)
Definition location_pings (evs : list event) : list event :=
  filter (λ e, event_type e = "location_ping"%string) evs.

(** [some((e) => e.event_type === ty)]. *)
Definition some_of_type (ty : string) (evs : list event) : bool :=
  existsb (λ e, bool_decide (event_type e = ty)) evs.

(** An object used as a table is a finite map from property names to
    values (the name [__proto__], which the language treats apart, is not
    considered).  [Object.values(o)] is only counted below, so the order
    of the properties does not matter. *)
Definition Object_values {V : Type} (o : gmap string V) : list V :=
  (map_to_list o).*2.

(** [t.tripId || t.filename]: [undefined] and the empty string are
    falsy. *)
Definition trip_key (t : trip) : string :=
  match tripId t with
  | Some (String c s) => String c s
  | Some EmptyString | None => filename t
  end.

(** An entry of [perTrip]. *)
Record tripInfo : Type := {
  latest : option event;
  count : nat;
  completed : bool;
  cancelled : bool;
  progress : Z
}.

(** The result of [deriveFleetState]; its fields [cancelled] and
    [completed] are named [cancelledTrips] and [completedTrips] here. *)
Record fleetState : Type := {
  perTrip : gmap string tripInfo;
  total : nat;
  cancelledTrips : nat;
  completedTrips : nat;
  pct50 : nat;
  pct80 : nat
}.

(** What [TripCard] computes before it renders, but for the data of the
    sparkline, which reads [movement.speed_kmh]. *)
Record tripCard : Type := {
  card_total : nat;
  card_latest : option event;
  card_cancelled : bool;
  card_completed : bool;
  card_progress : Z
}.

Section DerivedViews.

(** [percent n m] is [Math.round((n / m) * 100)] as the engine computes
    it in double precision; it is left open here. *)
Variable percent : nat → nat → Z.

(** The first loop of [deriveFleetState]. *)
Definition maxPoints (trips : list trip) : nat :=
  foldl (λ m t, Nat.max m (length (location_pings (events_of t)))) 0 trips.

(** The entry the second loop computes for a trip. *)
Definition trip_info (maxP : nat) (t : trip) : tripInfo :=
  let locs := location_pings (events_of t) in
  {| latest := last locs;
     count := length locs;
     completed := some_of_type "trip_completed" (events_of t);
     cancelled := some_of_type "trip_cancelled" (events_of t);
     progress := match maxP with
                 | 0 => 0%Z
                 | S _ => percent (length locs) maxP
                 end |}.

Definition deriveFleetState (trips : list trip) : fleetState :=
  let maxP := maxPoints trips in
  let table :=
    foldl (λ o t, <[trip_key t := trip_info maxP t]> o) ∅ trips in
  {| perTrip := table;
     total := length trips;
     cancelledTrips :=
       length (filter (λ i, cancelled i = true) (Object_values table));
     completedTrips :=
       length (filter (λ i, completed i = true) (Object_values table));
     pct50 :=
       length (filter (λ i, (50 <= progress i)%Z) (Object_values table));
     pct80 :=
       length (filter (λ i, (80 <= progress i)%Z) (Object_values table)) |}.

Definition TripCard (t : trip) : tripCard :=
  let locs := location_pings (events_of t) in
  let total := length locs in
  {| card_total := total;
     card_latest := last locs;
     card_cancelled := some_of_type "trip_cancelled" (events_of t);
     card_completed := some_of_type "trip_completed" (events_of t);
     card_progress := percent (length locs) (Nat.max 1 total) |}.

End DerivedViews.

(** The table [latestByTrip] of [MapPanel]: the activity list is walked
    from its head, and a location ping replaces the entry of its trip. *)
Definition latestByTrip (activity : list event) : gmap string event :=
  foldl (λ o ev,
           if bool_decide (event_type ev = "location_ping"%string)
           then <[trip_id ev := ev]> o else o)
    ∅ activity.

(** Rounding to a whole percentage in exact arithmetic, halves upwards;
    it meets what is assumed of [percent] below. *)
Definition percent_exact (n m : nat) : Z :=
  ((200 * Z.of_nat n + Z.of_nat m) / (2 * Z.of_nat m))%Z.


(** Two loaded files: the sample trip, and a file without records whose
    trip has no id. *)
Definition sample_trips : list trip :=
  [ Trip (Some "trip_1"%string) (Some sample_log) "trip_1.json"%string;
    Trip None None "trip_2.json"%string ].


(** The sample log in the player, playing since the wall-clock instant
    1000, and the dashboard around it. *)
Definition sample_player : EventPlayer (list event) :=
  play 1000 1000 1000 1%positive None (constructor sample_log None 1%Q 0).

Definition sample_app : @App (list event) event :=
  {| ui := {| player := Some sample_player; simTime := None;
              activity := [] |};
     isPlaying := true; speedSel := 1%Q;
     mergedEvents := [ev_start; ev_ping; ev_complete] |}.


(** A sequence of calls without [seek]. *)
Definition no_seek (cs : list call) : Prop :=
  Forall (λ c, match c with Seek _ _ => False | _ => True end) cs.


(** * Properties *)

(** ** Numbers and dates *)

Lemma Qtrunc_comp (q q' : Q) : (q == q')%Q → Qtrunc q = Qtrunc q'.
Proof.
  intros H. unfold Qtrunc.
  rewrite (Qfloor_comp _ _ H), (Qceiling_comp _ _ H).
  by rewrite (Qleb_comp _ _ (Qeq_refl 0%Q) _ _ H).
Qed.

Lemma Qtrunc_inject_Z (z : Z) : Qtrunc (inject_Z z) = z.
Proof.
  unfold Qtrunc. destruct (Qle_bool 0 (inject_Z z)).
  - apply Qfloor_Z.
  - apply Qceiling_Z.
Qed.

(** Truncation never crosses an integer: it is monotone against whole
    numbers on both sides. *)
Lemma Qtrunc_lower (z : Z) (q : Q) :
  (inject_Z z <= q)%Q → (z <= Qtrunc q)%Z.
Proof.
  intros H. unfold Qtrunc. destruct (Qle_bool 0 q).
  - rewrite <- (Qfloor_Z z). by apply Qfloor_resp_le.
  - rewrite <- (Qceiling_Z z). by apply Qceiling_resp_le.
Qed.

Lemma Qtrunc_upper (z : Z) (q : Q) :
  (q <= inject_Z z)%Q → (Qtrunc q <= z)%Z.
Proof.
  intros H. unfold Qtrunc. destruct (Qle_bool 0 q).
  - rewrite <- (Qfloor_Z z). by apply Qfloor_resp_le.
  - rewrite <- (Qceiling_Z z). by apply Qceiling_resp_le.
Qed.

Lemma TimeClip_comp (q q' : Q) :
  (q == q')%Q → TimeClip (Some q) = TimeClip (Some q').
Proof.
  intros H. unfold TimeClip. rewrite (Qtrunc_comp _ _ H).
  assert (Qabs q == Qabs q')%Q as Ha by (by rewrite H).
  by rewrite (Qleb_comp _ _ Ha _ _ (Qeq_refl _)).
Qed.

Lemma TimeClip_Some (v : number) (z : Z) :
  TimeClip v = Some z →
  ∃ q, v = Some q ∧ z = Qtrunc q ∧ (Qabs q <= inject_Z maxTime)%Q.
Proof.
  destruct v as [q|]; [|done]. simpl.
  destruct (Qle_bool (Qabs q) (inject_Z maxTime)) eqn:E; [|done].
  intros [= <-]. exists q. by rewrite <- Qle_bool_iff.
Qed.

(** Every [Date] holds NaN or a time value in range. *)
Lemma newDate_date_value (v : number) : date_value (newDate v).
Proof.
  destruct (newDate v) as [z|] eqn:E; [|done]. simpl.
  apply TimeClip_Some in E as (q & -> & -> & Hq).
  apply Qabs_Qle_condition in Hq as [Hlo Hhi].
  apply Z.abs_le. split.
  - apply Qtrunc_lower. by rewrite inject_Z_opp.
  - by apply Qtrunc_upper.
Qed.

(** [new Date(d.getTime())] has the time value of [d]. *)
Lemma newDate_ofTime (t : time) : date_value t → newDate (ofTime t) = t.
Proof.
  destruct t as [z|]; [|done]. intros Hz.
  change (newDate (ofTime (Some z))) with (TimeClip (Some (inject_Z z))).
  unfold TimeClip.
  assert (Qle_bool (Qabs (inject_Z z)) (inject_Z maxTime) = true) as ->.
  { apply Qle_bool_iff, Qabs_Qle_condition.
    apply Z.abs_le in Hz as [Hlo Hhi].
    rewrite <- inject_Z_opp, <- !Zle_Qle. done. }
  by rewrite Qtrunc_inject_Z.
Qed.

Lemma newDate_idem (v : number) : newDate (ofTime (newDate v)) = newDate v.
Proof. apply newDate_ofTime, newDate_date_value. Qed.

(** No simulated time elapses in zero wall-clock time. *)
Lemma newDate_zero_elapsed (t : time) (s : Q) :
  newDate (num_add (ofTime t) (Some (inject_Z 0 * s)%Q)) = newDate (ofTime t).
Proof.
  destruct t as [z|]; [|done].
  change (TimeClip (Some (inject_Z z + inject_Z 0 * s)%Q)
          = TimeClip (Some (inject_Z z))).
  apply TimeClip_comp. ring.
Qed.

Lemma date_le_Some (a b : time) :
  date_le a b = true ↔ ∃ x y, a = Some x ∧ b = Some y ∧ (x <= y)%Z.
Proof.
  destruct a as [x|], b as [y|]; simpl; split;
    try (intros (? & ? & ? & ? & ?)); try done.
  - intros H. exists x, y. by apply Z.leb_le in H.
  - simplify_eq. by apply Z.leb_le.
Qed.

Lemma date_gt_Some (a b : time) :
  date_gt a b = true ↔ ∃ x y, a = Some x ∧ b = Some y ∧ (y < x)%Z.
Proof.
  destruct a as [x|], b as [y|]; simpl; split;
    try (intros (? & ? & ? & ? & ?)); try done.
  - intros H. exists x, y. by apply Z.ltb_lt in H.
  - simplify_eq. by apply Z.ltb_lt.
Qed.


(** ** Sorting *)

Section Sorting.
Context {R : Type}.
Variable date : R → time.

Lemma insert_perm (x : R) (l : list R) : Array.insert (compareFn date) x l ≡ₚ x :: l.
Proof.
  induction l as [|y l IH]; simpl; [done|].
  destruct (0 <? Array.SortCompare (compareFn date) x y)%Z; [|done].
  rewrite IH. apply Permutation_swap.
Qed.

Lemma sort_perm (l : list R) : Array.sort (compareFn date) l ≡ₚ l.
Proof.
  induction l as [|x l IH]; simpl; [done|].
  by rewrite insert_perm, IH.
Qed.

Lemma sort_length (l : list R) : length (Array.sort (compareFn date) l) = length l.
Proof. apply Permutation_length, sort_perm. Qed.

(** The comparator is positive exactly when both timestamps parse and the
    first is the later one. *)
Lemma SortCompare_pos (x y : R) :
  (0 <? Array.SortCompare (compareFn date) x y)%Z = date_gt (date x) (date y).
Proof.
  unfold Array.SortCompare, compareFn, date_sub, date_gt.
  destruct (date x) as [a|], (date y) as [b|]; simpl; try done.
  destruct (Z.ltb_spec 0 (a - b)), (Z.ltb_spec b a); lia.
Qed.

Lemma insert_ascending (x : R) (l : list R) :
  well_formed date x → Forall (well_formed date) l →
  ascending date l → ascending date (Array.insert (compareFn date) x l).
Proof.
  intros [a Ha] Hwf Hl. induction Hl as [|y l Hl IH Hy]; simpl.
  - repeat constructor.
  - apply Forall_cons in Hwf as [[b Hb] Hwf].
    rewrite SortCompare_pos, Ha, Hb. simpl.
    destruct (Z.ltb_spec b a) as [Hlt|Hge].
    + constructor; [by apply IH|].
      rewrite insert_perm. constructor; [|done].
      rewrite Ha, Hb. simpl. apply Z.leb_le. lia.
    + constructor; [by constructor|]. constructor.
      * rewrite Ha, Hb. simpl. by apply Z.leb_le.
      * eapply Forall_impl; [exact Hy|]. intros z Hz.
        rewrite Hb in Hz. rewrite Ha.
        destruct (date z) as [c|]; simpl in *; [|done].
        apply Z.leb_le. apply Z.leb_le in Hz. lia.
Qed.

Lemma sort_ascending (l : list R) :
  Forall (well_formed date) l → ascending date (Array.sort (compareFn date) l).
Proof.
  induction 1 as [|x l Hx Hl IH]; simpl; [constructor|].
  apply insert_ascending; [done| |done].
  by rewrite sort_perm.
Qed.

(** Insertion moves a record only past records of another timestamp. *)
Lemma insert_with_date (t : time) (x : R) (l : list R) :
  with_date date t (Array.insert (compareFn date) x l) = with_date date t (x :: l).
Proof.
  unfold with_date. induction l as [|y l IH]; simpl; [done|].
  rewrite SortCompare_pos.
  destruct (date_gt (date x) (date y)) eqn:E; [|done].
  apply date_gt_Some in E as (a & b & Ha & Hb & Hlt).
  rewrite (filter_cons _ y), IH, !filter_cons.
  repeat case_decide; try done.
  assert (a = b) by congruence. lia.
Qed.

Lemma sort_with_date (t : time) (l : list R) :
  with_date date t (Array.sort (compareFn date) l) = with_date date t l.
Proof.
  induction l as [|x l IH]; simpl; [done|].
  rewrite insert_with_date. unfold with_date in *.
  rewrite !filter_cons, IH. done.
Qed.

(** [sort] is a stable ascending sort of every log whose timestamps
    parse. *)
Lemma sort_stable (l : list R) :
  Forall (well_formed date) l → stable_sort_of date l (Array.sort (compareFn date) l).
Proof.
  intros Hwf. split_and!.
  - apply sort_perm.
  - by apply sort_ascending.
  - intros t. apply sort_with_date.
Qed.

(** Two ascending lists that agree on the records of every timestamp are
    equal: a log has one stable ascending sort, whatever algorithm the
    engine's [sort] uses. *)
Lemma ascending_with_date_eq (l1 l2 : list R) :
  ascending date l1 → ascending date l2 →
  (∀ t, with_date date t l1 = with_date date t l2) → l1 = l2.
Proof.
  unfold with_date. intros H1. revert l2.
  induction H1 as [|x l1 H1 IH Hx]; intros l2 H2 Heq.
  - destruct l2 as [|y l2]; [done|].
    specialize (Heq (date y)). rewrite filter_cons_True in Heq; done.
  - destruct H2 as [|y l2 H2 Hy].
    { specialize (Heq (date x)). rewrite filter_cons_True in Heq; done. }
    assert (x = y) as <-.
    { pose proof (Heq (date x)) as Ex. rewrite filter_cons_True in Ex by done.
      destruct (decide (date y = date x)) as [E|N].
      - rewrite filter_cons_True in Ex by done. by simplify_eq.
      - exfalso. rewrite filter_cons_False in Ex by done.
        assert (x ∈ l2) as Hin2.
        { eapply (list_elem_of_filter (λ e, date e = date x)).
          rewrite <- Ex. left. }
        pose proof (Heq (date y)) as Ey.
        rewrite filter_cons_False, (filter_cons_True _ y) in Ey by done.
        assert (y ∈ l1) as Hin1.
        { eapply (list_elem_of_filter (λ e, date e = date y)).
          rewrite Ey. left. }
        rewrite Forall_forall in Hx, Hy.
        apply Hx, date_le_Some in Hin1 as (a & b & Ha & Hb & Hab).
        apply Hy, date_le_Some in Hin2 as (b' & a' & Hb' & Ha' & Hba).
        assert (a ≠ b) by congruence.
        assert (a = a') by congruence. assert (b = b') by congruence. lia. }
    f_equal. apply IH; [done|]. intros t. specialize (Heq t).
    rewrite !filter_cons in Heq. case_decide; by simplify_eq.
Qed.

Lemma stable_sort_unique (l l1 l2 : list R) :
  stable_sort_of date l l1 → stable_sort_of date l l2 → l1 = l2.
Proof.
  intros (_ & A1 & E1) (_ & A2 & E2).
  apply ascending_with_date_eq; [done..|].
  intros t. by rewrite E1, E2.
Qed.

End Sorting.

(** ** The clock *)

Section Clock.
Context {A : Type}.
Implicit Types p : EventPlayer A.

Lemma getSimTime_date_value (now : Z) p : date_value (getSimTime now p).
Proof.
  unfold getSimTime. destruct (baseReal p) as [a|];
    [destruct (a =? 0)%Z|]; apply newDate_date_value.
Qed.

(** [pause] touches nothing but the interval handle. *)
Lemma pause_fields p :
  events (pause p) = events p ∧ speed (pause p) = speed p ∧
  baseReal (pause p) = baseReal p ∧ baseSim (pause p) = baseSim p ∧
  pointer (pause p) = pointer p ∧ simNow (pause p) = simNow p ∧
  timer (pause p) = None.
Proof. unfold pause. destruct (timer p) eqn:E; simpl; by rewrite ?E. Qed.

Lemma getSimTime_pause (now : Z) p :
  getSimTime now (pause p) = getSimTime now p.
Proof.
  destruct (pause_fields p) as (_ & Hs & Hr & Hb & _).
  unfold getSimTime. by rewrite Hs, Hr, Hb.
Qed.

Lemma pause_idem p : pause (pause p) = pause p.
Proof. unfold pause. destruct (timer p) eqn:E; simpl; by rewrite ?E. Qed.

(** The time read at the instant of the new anchor is the time that
    [setSpeed] computed and stored. *)
Lemma getSimTime_setSpeed (now1 now2 : Z) (s : Q) p :
  getSimTime now2 (setSpeed now1 now2 s p) = getSimTime now1 p.
Proof.
  unfold getSimTime at 1. simpl.
  replace (now2 - now2)%Z with 0%Z by lia.
  rewrite newDate_zero_elapsed.
  destruct (now2 =? 0)%Z;
    apply newDate_ofTime, getSimTime_date_value.
Qed.

End Clock.

(** ** Ticks *)

Section Ticks.
Context {A R : Type}.
Variable elems : A → list R.
Variable date : R → time.
Implicit Types p : EventPlayer A.

Lemma delivered_app (tr1 tr2 : list (signal R)) :
  delivered (tr1 ++ tr2) = delivered tr1 ++ delivered tr2.
Proof. apply omap_app. Qed.

Lemma delivered_onEvent (l : list R) : delivered (onEvent <$> l) = l.
Proof. induction l as [|x l IH]; simpl; [done|]. by f_equal. Qed.

(** The loop delivers a prefix of the pending records, all of them due,
    moves the pointer past them, and stops at the end of the log or at the
    first record that is not due. *)
Lemma tick_loop_spec (now : time) (pending : list R) (ptr : nat) :
  ∃ k,
    tick_loop date now pending ptr = (ptr + k, onEvent <$> take k pending) ∧
    k ≤ length pending ∧
    Forall (λ e, date_le (date e) now = true) (take k pending) ∧
    (∀ e, pending !! k = Some e → date_le (date e) now = false).
Proof.
  revert ptr. induction pending as [|e rest IH]; intros ptr; simpl.
  - exists 0. rewrite Nat.add_0_r. by split_and!.
  - destruct (date_le (date e) now) eqn:E.
    + destruct (IH (S ptr)) as (k & -> & Hk & Hdue & Hstop).
      exists (S k). simpl. split_and!; [f_equal; lia|lia|by constructor|done].
    + exists 0. rewrite Nat.add_0_r. simpl.
      split_and!; [done|lia|done|]. by intros ? [= <-].
Qed.

(** The state and the trace of one tick. *)
Lemma tick_spec (now : Z) p :
  ∃ k,
    let p' := (_tick elems date now p).1 in
    let evs := elems (events p) in
    (_tick elems date now p).2 =
      onTick (getSimTime now p) :: (onEvent <$> take k (drop (pointer p) evs)) ∧
    pointer p' = pointer p + k ∧
    k ≤ length (drop (pointer p) evs) ∧
    Forall (λ e, date_le (date e) (getSimTime now p) = true)
      (take k (drop (pointer p) evs)) ∧
    (∀ e, evs !! (pointer p + k) = Some e →
       date_le (date e) (getSimTime now p) = false) ∧
    events p' = events p ∧ speed p' = speed p ∧
    baseReal p' = baseReal p ∧ baseSim p' = baseSim p ∧
    simNow p' = getSimTime now p ∧
    timer p' = (if bool_decide (length evs ≤ pointer p') then None
                else timer p).
Proof.
  destruct (tick_loop_spec (getSimTime now p)
              (drop (pointer p) (elems (events p))) (pointer p))
    as (k & Hloop & Hk & Hdue & Hstop).
  exists k. unfold _tick. rewrite Hloop. cbn zeta.
  set (p1 := {| events := events p; pointer := pointer p + k |}).
  destruct (pause_fields p1) as (He & Hs & Hr & Hb & Hp & Hn & Ht).
  cbn [fst snd].
  assert (∀ e, elems (events p) !! (pointer p + k) = Some e →
            date_le (date e) (getSimTime now p) = false) as Hstop'.
  { intros e He'. apply Hstop. by rewrite lookup_drop. }
  case_bool_decide as Hend.
  - rewrite He, Hs, Hr, Hb, Hp, Hn, Ht. simpl.
    rewrite bool_decide_true by done. by split_and!.
  - simpl. rewrite bool_decide_false by done. by split_and!.
Qed.

Lemma fire_step (now : Z) p :
  ∃ k, tick_step elems p (fire elems date now p).1
         (delivered (fire elems date now p).2) k.
Proof.
  unfold fire. destruct (timer p) as [h|] eqn:Et.
  - destruct (tick_spec now p)
      as (k & Htr & Hp & Hk & _ & _ & He & Hs & Hr & Hb & _ & Ht).
    exists k. split; try done.
    + rewrite Htr. simpl. apply delivered_onEvent.
    + rewrite Ht, Et. case_bool_decide; [right|left]; done.
    + by rewrite Et.
  - exists 0. split; simpl; try done; try lia. by left.
Qed.

Lemma tick_step_trans p p1 p2 (o1 o2 : list R) (k1 k2 : nat) :
  tick_step elems p p1 o1 k1 → tick_step elems p1 p2 o2 k2 →
  tick_step elems p p2 (o1 ++ o2) (k1 + k2).
Proof.
  intros [] []. split; try congruence.
  - lia.
  - rewrite step_events0, step_pointer0 in step_bound1.
    rewrite length_drop in *. lia.
  - subst o1 o2. rewrite step_events0, step_pointer0, <- drop_drop.
    apply take_take_drop.
  - destruct step_timer0 as [E|[E Hend]].
    + destruct step_timer1 as [E'|[E' Hend']]; [left; congruence|].
      right. split; [done|]. by rewrite <- step_events0.
    + destruct (step_idle1 E) as [-> ->]. by right.
  - intros E. destruct (step_idle0 E) as [-> ->].
    destruct (step_idle1 E) as [-> ->]. done.
Qed.

Lemma run_ticks_step (ws : list Z) p :
  ∃ k, tick_step elems p (run_ticks elems date ws p).1
         (delivered (run_ticks elems date ws p).2) k.
Proof.
  revert p. induction ws as [|w ws IH]; intros p; simpl.
  - exists 0. split; simpl; try done; try lia. by left.
  - destruct (fire_step w p) as (k1 & H1).
    destruct (fire elems date w p) as [p1 out1]. simpl in H1.
    destruct (IH p1) as (k2 & H2).
    destruct (run_ticks elems date ws p1) as [p2 out2]. simpl in *.
    exists (k1 + k2). rewrite delivered_app. by eapply tick_step_trans.
Qed.

Lemma run_ticks_app (ws1 ws2 : list Z) p :
  run_ticks elems date (ws1 ++ ws2) p =
  let r1 := run_ticks elems date ws1 p in
  let r2 := run_ticks elems date ws2 r1.1 in
  (r2.1, r1.2 ++ r2.2).
Proof.
  revert p. induction ws1 as [|w ws1 IH]; intros p; simpl.
  - by destruct (run_ticks elems date ws2 p).
  - destruct (fire elems date w p) as [p1 o1]. rewrite IH. simpl.
    destruct (run_ticks elems date ws1 p1) as [p2 o2]. simpl.
    destruct (run_ticks elems date ws2 p2) as [p3 o3]. simpl.
    by rewrite app_assoc.
Qed.

(** The records at consecutive positions of a list. *)
Lemma take_drop_positions (l : list R) (ptr k : nat) :
  k ≤ length (drop ptr l) →
  Forall2 (λ e i, l !! i = Some e) (take k (drop ptr l)) (seq ptr k).
Proof.
  revert ptr. induction k as [|k IH]; intros ptr Hk; simpl.
  - rewrite take_0. constructor.
  - rewrite length_drop in Hk.
    destruct (lookup_lt_is_Some_2 l ptr) as [x Hx]; [lia|].
    rewrite (drop_S _ _ _ Hx). simpl. constructor; [done|].
    apply IH. rewrite length_drop. lia.
Qed.

(** Once the interval is cleared no tick runs any more. *)
Lemma run_ticks_idle (ws : list Z) p :
  timer p = None → run_ticks elems date ws p = (p, []).
Proof.
  intros E. induction ws as [|w ws IH]; simpl; [done|].
  unfold fire. by rewrite E, IH.
Qed.

(** Ticks never move the anchor of the clock. *)
Lemma tick_step_getSimTime p p' (out : list R) (k : nat) (now : Z) :
  tick_step elems p p' out k → getSimTime now p' = getSimTime now p.
Proof.
  intros []. unfold getSimTime.
  by rewrite step_speed0, step_baseReal0, step_baseSim0.
Qed.

(** A tick at an instant when every record of the log is due exhausts the
    log. *)
Lemma tick_all_due (now : Z) p :
  Forall (λ e, date_le (date e) (getSimTime now p) = true)
    (elems (events p)) →
  length (elems (events p)) ≤ pointer (_tick elems date now p).1.
Proof.
  intros Hdue.
  destruct (tick_spec now p) as (k & _ & Hp & _ & _ & Hstop & _).
  simpl in *. rewrite Hp.
  destruct (decide (pointer p + k < length (elems (events p)))) as [Hlt|];
    [|lia].
  destruct (lookup_lt_is_Some_2 _ _ Hlt) as [e He].
  rewrite Forall_forall in Hdue. specialize (Hstop e He).
  rewrite Hdue in Hstop; [done|]. by eapply list_elem_of_lookup_2.
Qed.

Lemma tick_exhausted (now : Z) p :
  length (elems (events p)) ≤ pointer (_tick elems date now p).1 →
  timer (_tick elems date now p).1 = None.
Proof.
  intros Hend.
  destruct (tick_spec now p) as (k & Hrest). simpl in Hrest.
  destruct Hrest as (_ & _ & _ & _ & _ & _ & _ & _ & _ & _ & Ht).
  by rewrite Ht, bool_decide_true.
Qed.

(** C3.  Within a play session, that is over any sequence of ticks from
    any state, the records passed to [onEvent] are those at the positions
    [pointer], [pointer + 1], ... of the log up to the final pointer, each
    position once; so no record of a log without repeated records is
    passed twice. *)
Theorem at_most_once_delivery (ws : list Z) p :
  let r := run_ticks elems date ws p in
  pointer p ≤ pointer r.1 ∧
  Forall2 (λ e i, elems (events p) !! i = Some e)
    (delivered r.2) (seq (pointer p) (pointer r.1 - pointer p)) ∧
  (NoDup (elems (events p)) → NoDup (delivered r.2)).
Proof.
  destruct (run_ticks_step ws p) as (k & []). cbn zeta.
  rewrite step_pointer0. replace (pointer p + k - pointer p) with k by lia.
  split_and!; [lia| |].
  - rewrite step_out0. by apply take_drop_positions.
  - intros Hnd. rewrite step_out0.
    eapply sublist_NoDup; [exact Hnd|].
    etrans; [apply sublist_take|apply sublist_drop].
Qed.

(** C7.  A tick that brings the pointer to the length of the log clears
    the interval, and no tick runs afterwards; with an empty log this
    happens at the first tick after [play]. *)
Theorem exhaustion_stops_ticks :
  (∀ (now : Z) (ws : list Z) p,
     length (elems (events p)) ≤ pointer (_tick elems date now p).1 →
     timer (_tick elems date now p).1 = None ∧
     run_ticks elems date ws (_tick elems date now p).1 =
       ((_tick elems date now p).1, [])) ∧
  (∀ (evs : A) startTime speed0 (c now1 now2 now3 : Z) h s (now : Z),
     elems evs = [] →
     let p0 := play now1 now2 now3 h s (init elems date evs startTime speed0 c)
     in
     timer p0 = Some h ∧
     timer (fire elems date now p0).1 = None ∧
     pointer (fire elems date now p0).1 = length (elems evs)).
Proof.
  split.
  - intros now ws p Hend. split; [by apply tick_exhausted|].
    by apply run_ticks_idle, tick_exhausted.
  - intros evs startTime speed0 c now1 now2 now3 h s now Hevs p0.
    assert (timer p0 = Some h ∧ events p0 = evs ∧ pointer p0 = 0)
      as (Ht & He & Hp) by done.
    clearbody p0. split; [done|]. unfold fire. rewrite Ht.
    destruct (tick_spec now p0) as (k & Hrest). simpl in Hrest.
    destruct Hrest as (_ & Hptr & Hk & _).
    rewrite He, Hp, Hevs in Hk. simpl in Hk.
    assert (k = 0) as -> by lia.
    rewrite Hptr, Hp, Hevs. split; [|done].
    apply tick_exhausted. rewrite Hptr, He, Hp, Hevs. simpl. lia.
Qed.

(** A tick delivers only records whose timestamp parses. *)
Lemma run_ticks_delivered_well_formed (ws : list Z) p :
  Forall (well_formed date) (delivered (run_ticks elems date ws p).2).
Proof.
  revert p. induction ws as [|w ws IH]; intros p; simpl; [constructor|].
  pose proof (IH (fire elems date w p).1) as IH'.
  destruct (fire elems date w p) as [p1 o1] eqn:Ef. simpl in IH'.
  destruct (run_ticks elems date ws p1) as [p2 o2]. simpl in *.
  rewrite delivered_app. apply Forall_app. split; [|done].
  unfold fire in Ef. destruct (timer p); [|by simplify_eq].
  destruct (tick_spec w p) as (k & Htr & _ & _ & Hdue & _).
  rewrite Ef in Htr. simpl in Htr. subst o1. simpl.
  rewrite delivered_onEvent.
  eapply Forall_impl; [exact Hdue|]. intros e He.
  apply date_le_Some in He as (x & _ & Hx & _). by exists x.
Qed.

Lemma exec_all_ticks (ws : list Z) p :
  exec_all elems date (Tick <$> ws) p = run_ticks elems date ws p.
Proof.
  revert p. induction ws as [|w ws IH]; intros p; csimpl; [done|].
  destruct (fire elems date w p) as [p1 o1]. by rewrite IH.
Qed.

(** C8 (as the code has it).  A record whose timestamp does not parse is
    never delivered by a tick, and it is not skipped either: the pointer
    never moves past it, so the records behind it are not delivered and
    the interval is never cleared.  While the pointer stands at such a
    record, ticks deliver nothing at all. *)
Theorem malformed_record_blocks (ws : list Z) p (i : nat) (e : R) :
  elems (events p) !! i = Some e → ¬ well_formed date e → pointer p ≤ i →
  let r := run_ticks elems date ws p in
  Forall (well_formed date) (delivered r.2) ∧
  pointer r.1 ≤ i ∧
  timer r.1 = timer p ∧
  (pointer p = i → delivered r.2 = [] ∧ pointer r.1 = pointer p).
Proof.
  intros He Hbad Hle r.
  pose proof (run_ticks_delivered_well_formed ws p) as Hwf. fold r in Hwf.
  destruct (run_ticks_step ws p) as (k & []). fold r in step_pointer0,
    step_out0, step_timer0.
  assert (k ≤ i - pointer p) as Hk.
  { destruct (decide (k ≤ i - pointer p)) as [|Hgt]; [done|]. exfalso.
    apply Hbad. rewrite Forall_forall in Hwf. apply Hwf.
    rewrite step_out0. apply list_elem_of_lookup. exists (i - pointer p).
    apply lookup_take_Some. split; [|lia]. rewrite lookup_drop.
    by replace (pointer p + (i - pointer p)) with i by lia. }
  apply lookup_lt_Some in He as Hlen.
  split_and!; [done|lia| |].
  - destruct step_timer0 as [E|[_ Hend]]; [done|lia].
  - intros Hpi. assert (k = 0) as -> by lia.
    rewrite step_out0, take_0. split; [done|lia].
Qed.

End Ticks.

(** ** A play-through *)

(** C2.  For a log whose timestamps parse, the records passed to
    [onEvent] from [play()] up to exhaustion are the log sorted ascending
    by timestamp with ties in input order; and a play-through whose last
    tick comes when the whole log is due does reach exhaustion. *)
Theorem play_through_delivers_sorted_log (log : list event)
    (startTime : option time) (speed0 : Q) (c now1 now2 now3 : Z)
    (h : handle) (s : option Q) :
  Forall (well_formed timestamp) log →
  let p0 := play now1 now2 now3 h s (constructor log startTime speed0 c) in
  (∀ ws, timer (run_ticks id timestamp ws p0).1 = None →
         stable_sort_of timestamp log
           (delivered (run_ticks id timestamp ws p0).2)) ∧
  (∀ ws w,
     Forall (λ e, date_le (timestamp e) (getSimTime w p0) = true) log →
     timer (run_ticks id timestamp (ws ++ [w]) p0).1 = None).
Proof.
  intros Hwf p0.
  assert (timer p0 = Some h ∧ pointer p0 = 0 ∧
          events p0 = Array.sort (compareFn timestamp) log)
    as (Ht & Hp & He) by done.
  clearbody p0. split.
  - intros ws Hend.
    destruct (run_ticks_step id timestamp ws p0) as (k & []).
    destruct step_timer0 as [E|[_ Hlen]]; [congruence|].
    rewrite step_out0, Hp, He. unfold id. rewrite drop_0, take_ge.
    + by apply sort_stable.
    + rewrite step_pointer0, Hp, He in Hlen. unfold id in Hlen. lia.
  - intros ws w Hdue. rewrite run_ticks_app. simpl.
    destruct (run_ticks_step id timestamp ws p0) as (k & Hk).
    pose proof (tick_step_getSimTime id _ _ _ _ w Hk) as Hg.
    destruct Hk. destruct (run_ticks id timestamp ws p0) as [p1 o1].
    simpl in *. destruct (fire id timestamp w p1) as [p2 o2] eqn:Ef.
    simpl. unfold fire in Ef. destruct (timer p1) eqn:Et1; [|by simplify_eq].
    assert (p2 = (_tick id timestamp w p1).1) as -> by by rewrite Ef.
    apply tick_exhausted, tick_all_due. rewrite Hg, step_events0, He. unfold id.
    by rewrite sort_perm.
Qed.

Lemma at_most_once_delivery_witness :
  NoDup
    (delivered
       (run_ticks id timestamp [1250; 1500; 3000; 5000]%Z
          (play 1000 1000 1000 1%positive None
             (constructor sample_log None 1%Q 0))).2).
Proof.
  refine (proj2 (proj2 (at_most_once_delivery id timestamp
    [1250; 1500; 3000; 5000]%Z
    (play 1000 1000 1000 1%positive None
       (constructor sample_log None 1%Q 0)))) _).
  apply (bool_decide_unpack _). by vm_compute.
Defined.

Lemma exhaustion_stops_ticks_witness :
  run_ticks id timestamp [7000; 8000]%Z
    (_tick id timestamp 12000
       (play 1000 1000 1000 1%positive None
          (constructor sample_log None 1%Q 0))).1
  = ((_tick id timestamp 12000
        (play 1000 1000 1000 1%positive None
           (constructor sample_log None 1%Q 0))).1, []).
Proof.
  refine (proj2 (proj1 (exhaustion_stops_ticks id timestamp)
    12000%Z [7000; 8000]%Z
    (play 1000 1000 1000 1%positive None
       (constructor sample_log None 1%Q 0)) _)).
  vm_compute. lia.
Defined.

Lemma play_through_witness :
  stable_sort_of timestamp sample_log [ev_start; ev_ping; ev_complete] ∧
  timer (run_ticks id timestamp ([1250; 6000] ++ [12000])%Z
           (play 1000 1000 1000 1%positive None
              (constructor sample_log None 1%Q 0))).1 = None.
Proof.
  assert (Forall (well_formed timestamp) sample_log) as Hwf.
  { repeat constructor; by eexists. }
  destruct (play_through_delivers_sorted_log sample_log None 1%Q 0
              1000 1000 1000 1%positive None Hwf) as [H1 H2].
  split.
  - apply (H1 [1250; 6000; 12000]%Z). vm_compute. reflexivity.
  - apply H2. vm_compute. repeat constructor.
Defined.

(** ** The clock, [pause], [setSpeed] and [play] *)

Section ClockClaims.
Context {A : Type}.
Implicit Types p : EventPlayer A.


(** C6.  [setSpeed] is time-continuous: read at the instant of the call,
    the clock shows the same time before and after it. *)
Theorem setSpeed_continuous (now : Z) (s : Q) p :
  getSimTime now (setSpeed now now s p) = getSimTime now p.
Proof. apply getSimTime_setSpeed. Qed.

(** C5 (as the code has it).  A second [play()] while the interval runs
    starts no second interval and keeps the handle, but it re-anchors
    through [setSpeed]: [baseReal] becomes the instant of the call and
    [baseSim] the time the clock shows then, so the reading of the clock
    at that instant is unchanged.  The state is that of a single call when
    both calls happen at the same wall-clock instant. *)
Theorem play_while_running (now1 now2 now3 : Z) (h h0 : handle)
    (s : option Q) p :
  timer p = Some h0 →
  let p' := play now1 now2 now3 h s p in
  p' = setSpeed now1 now2 (default (speed p) s) p ∧
  timer p' = Some h0 ∧
  events p' = events p ∧ pointer p' = pointer p ∧
  baseReal p' = Some now2 ∧
  baseSim p' = getSimTime now1 p ∧
  getSimTime now2 p' = getSimTime now1 p ∧
  (∀ (w : Z) (h1 h2 : handle) (q : EventPlayer A),
     play w w w h2 s (play w w w h1 s q) = play w w w h1 s q).
Proof.
  intros Ht p'.
  assert (p' = setSpeed now1 now2 (default (speed p) s) p) as Hp'.
  { unfold p', play. simpl. by rewrite Ht. }
  split_and!; try (rewrite Hp'; done).
  - rewrite Hp'. apply getSimTime_setSpeed.
  - intros w h1 h2 q.
    set (q1 := play w w w h1 s q).
    assert (∃ h', timer q1 = Some h') as [h' Ht1].
    { unfold q1, play. simpl.
      destruct (timer q) eqn:E; simpl; rewrite ?E; eauto. }
    assert (baseReal q1 = Some w ∧ baseSim q1 = getSimTime w q ∧
            simNow q1 = getSimTime w q ∧
            speed q1 = default (speed q) s) as (Hr & Hb & Hn & Hs).
    { unfold q1, play. simpl. by destruct (timer q) eqn:E. }
    assert (getSimTime w q1 = getSimTime w q) as Hg.
    { unfold getSimTime at 1. rewrite Hr, Hb.
      replace (w - w)%Z with 0%Z by lia. rewrite newDate_zero_elapsed.
      destruct (w =? 0)%Z; apply newDate_ofTime, getSimTime_date_value. }
    assert (default (speed q1) s = speed q1) as Hd.
    { rewrite Hs. by destruct s. }
    unfold play at 1. unfold setSpeed. simpl. rewrite Ht1, Hg, Hd.
    clearbody q1. destruct q1. simpl in *. by subst.
Qed.

End ClockClaims.



Lemma play_while_running_witness :
  baseReal (A:=list event)
    (play 2000 2000 2000 2%positive None
       (play 1000 1000 1000 1%positive None
          (constructor sample_log None 1%Q 0))) = Some 2000%Z.
Proof.
  refine (proj1 (proj2 (proj2 (proj2 (proj2
    (play_while_running 2000 2000 2000 2%positive 1%positive None
       (play 1000 1000 1000 1%positive None
          (constructor sample_log None 1%Q 0)) _)))))).
  reflexivity.
Defined.


(** C5 as stated fails: a second [play()] one second after the first
    moves the anchor. *)
Lemma second_play_moves_anchor :
  ¬ second_play_is_noop (constructor sample_log None 1%Q 0)
      1000 2000 1%positive 2%positive.
Proof. vm_compute. discriminate. Qed.

(** ** [seek] and the step button *)

Section Seeking.
Context {A R : Type}.
Variable elems : A → list R.
Variable date : R → time.
Implicit Types p : EventPlayer A.

Lemma findIndex_Some (f : R → bool) (l : list R) (i : nat) :
  Array.findIndex f l = Some i →
  ∃ x, l !! i = Some x ∧ f x = true ∧
       ∀ j y, j < i → l !! j = Some y → f y = false.
Proof.
  revert i. induction l as [|x l IH]; intros i; simpl; [done|].
  destruct (f x) eqn:E.
  - intros [= <-]. exists x. split_and!; [done..|]. intros; lia.
  - destruct (Array.findIndex f l) as [i'|]; [|done]. simpl.
    intros [= <-]. destruct (IH i' eq_refl) as (y & Hy & Hfy & Hlt).
    exists y. split_and!; [done..|].
    intros [|j] z Hj; simpl; [by intros [= <-]|].
    apply Hlt. lia.
Qed.

Lemma findIndex_None (f : R → bool) (l : list R) :
  Array.findIndex f l = None → Forall (λ x, f x = false) l.
Proof.
  induction l as [|x l IH]; simpl; [constructor|].
  destruct (f x) eqn:E; [done|].
  destruct (Array.findIndex f l); [done|]. intros _. by constructor; auto.
Qed.

(** Right after a seek the clock shows the target. *)
Lemma getSimTime_seek (now : Z) (t : time) p :
  date_value t → getSimTime now (seek elems date now t p) = t.
Proof.
  intros Ht. unfold getSimTime. simpl.
  replace (now - now)%Z with 0%Z by lia. rewrite newDate_zero_elapsed.
  destruct (now =? 0)%Z; by apply newDate_ofTime.
Qed.

(** C4.  [seek] sets the simulated time to the target, takes the instant
    of the call as wall-clock anchor, puts the pointer on the first record
    whose timestamp is not before the target, or on the length of the log
    when there is none, and calls neither callback. *)
Theorem seek_relocates (now : Z) (t : time) p :
  date_value t →
  let p' := seek elems date now t p in
  let evs := elems (events p) in
  exec elems date (Seek now t) p = (p', []) ∧
  simNow p' = t ∧ baseSim p' = t ∧ baseReal p' = Some now ∧
  getSimTime now p' = t ∧
  events p' = events p ∧ speed p' = speed p ∧ timer p' = timer p ∧
  pointer p' ≤ length evs ∧
  (∀ j e, j < pointer p' → evs !! j = Some e →
          date_ge (date e) t = false) ∧
  (∀ e, evs !! pointer p' = Some e → date_ge (date e) t = true).
Proof.
  intros Ht p' evs.
  assert (simNow p' = t) as Hn by by apply newDate_ofTime.
  split_and!; try done.
  - by apply getSimTime_seek.
  - unfold p', seek. simpl. fold evs.
    destruct (Array.findIndex _ evs) as [i|] eqn:E; [|done].
    apply findIndex_Some in E as (x & Hx & _). apply lookup_lt_Some in Hx. lia.
  - unfold p', seek. simpl. fold evs. rewrite (newDate_ofTime t Ht).
    destruct (Array.findIndex _ evs) as [i|] eqn:E.
    + apply findIndex_Some in E as (x & _ & _ & Hlt). exact Hlt.
    + intros j e _ He. apply findIndex_None in E.
      rewrite Forall_forall in E. apply E.
      by eapply list_elem_of_lookup_2.
  - unfold p', seek. simpl. fold evs. rewrite (newDate_ofTime t Ht).
    destruct (Array.findIndex _ evs) as [i|] eqn:E.
    + apply findIndex_Some in E as (x & Hx & Hfx & _).
      intros e He. by simplify_eq.
    + intros e He. apply lookup_lt_Some in He. lia.
Qed.

(** After a seek to [t] the clock never shows less than [t], provided
    the speed is not negative and the wall clock did not go back. *)
Lemma getSimTime_seek_lower (now later : Z) (t n : Z) p :
  (0 <= speed p)%Q → (now <= later)%Z → date_value (Some t) →
  getSimTime later (seek elems date now (Some t) p) = Some n → (t <= n)%Z.
Proof.
  intros Hs Hw Ht. unfold getSimTime, seek. cbn [baseReal baseSim speed].
  destruct (now =? 0)%Z.
  - rewrite (newDate_ofTime (Some t) Ht). by intros [= <-].
  - intros Hn. cbn [ofTime fmap option_fmap option_map num_add] in Hn. apply TimeClip_Some in Hn as (q & [= <-] & -> & _).
    apply Qtrunc_lower.
    rewrite <- (Qplus_0_r (inject_Z t)) at 1. apply Qplus_le_r.
    apply Qmult_le_0_compat; [|done].
    change 0%Q with (inject_Z 0). rewrite <- Zle_Qle. lia.
Qed.

(** C9 (as the code has it).  The step button clears the interval and
    looks for the first record whose timestamp is strictly later than the
    time the clock shows.  If there is none nothing else changes.
    Otherwise it seeks to that record's timestamp, so that the clock shows
    exactly that time and the pointer stands on the record, and puts that
    one record at the head of the activity list.  Records that are not
    strictly later than the clock are passed over, and the record the next
    call picks is strictly later than this one. *)
Theorem step_forward_next (now1 now2 now3 : Z) (d : Dashboard) p :
  player d = Some p →
  Forall (λ e, date_value (date e)) (elems (events p)) →
  let now := getSimTime now1 p in
  let evs := elems (events p) in
  let d' := stepForward elems date now1 now2 now3 d in
  match Array.findIndex (λ e, date_gt (date e) now) evs with
  | None =>
      Forall (λ e, date_gt (date e) now = false) evs ∧
      d' = {| player := Some (pause p); simTime := simTime d;
              activity := activity d |}
  | Some i =>
      ∃ e p',
        evs !! i = Some e ∧ date_gt (date e) now = true ∧
        (∀ j e', j < i → evs !! j = Some e' →
                 date_gt (date e') now = false) ∧
        p' = seek elems date now2 (date e) (pause p) ∧
        d' = {| player := Some p'; simTime := Some (getSimTime now3 p');
                activity := take 300 (e :: activity d) |} ∧
        timer p' = None ∧ simNow p' = date e ∧
        getSimTime now2 p' = date e ∧ pointer p' = i ∧
        (∀ (later : Z) (i' : nat) (e' : R),
           (0 <= speed p)%Q → (now2 <= later)%Z →
           Array.findIndex
             (λ x, date_gt (date x) (getSimTime later p')) evs = Some i' →
           evs !! i' = Some e' → date_gt (date e') (date e) = true)
  end.
Proof.
  intros Hpl Hval now evs d'.
  destruct (pause_fields p) as (He & Hs & Hr & Hb & Hp & Hn & Ht).
  assert (getSimTime now1 (pause p) = now) as Hg by apply getSimTime_pause.
  unfold d', stepForward. rewrite Hpl. cbn zeta. rewrite Hg, He. fold evs.
  destruct (Array.findIndex (λ e, date_gt (date e) now) evs) as [i|] eqn:E.
  - apply findIndex_Some in E as (e & Hi & Hgt & Hlt).
    rewrite Hi. exists e, (seek elems date now2 (date e) (pause p)).
    assert (date_value (date e)) as Hv.
    { rewrite Forall_forall in Hval. apply Hval.
      by eapply list_elem_of_lookup_2. }
    split_and!; try done.
    + by apply newDate_ofTime.
    + by apply getSimTime_seek.
    + simpl. rewrite He. fold evs. rewrite (newDate_ofTime _ Hv).
      apply date_gt_Some in Hgt as (x & n & Hx & Hnow & Hnx).
      destruct (Array.findIndex _ evs) as [k|] eqn:Ek.
      * apply findIndex_Some in Ek as (y & Hk & Hge & Hmin).
        destruct (Nat.lt_trichotomy k i) as [Hki|[->|Hik]]; [|done|].
        -- exfalso. specialize (Hlt k y Hki Hk).
           unfold date_ge in Hge. rewrite Hx in Hge. rewrite Hnow in Hlt.
           destruct (date y) as [z|]; simpl in *; [|done].
           apply Z.leb_le in Hge. apply Z.ltb_ge in Hlt. lia.
        -- exfalso. specialize (Hmin i e Hik Hi).
           unfold date_ge in Hmin. rewrite Hx in Hmin. simpl in Hmin.
           apply Z.leb_gt in Hmin. lia.
      * apply findIndex_None in Ek. rewrite Forall_forall in Ek.
        exfalso. specialize (Ek e (list_elem_of_lookup_2 _ _ _ Hi)).
        unfold date_ge in Ek. rewrite Hx in Ek. simpl in Ek.
        apply Z.leb_gt in Ek. lia.
    + intros later i' e' Hsp Hw Ei' Hi'.
      apply findIndex_Some in Ei' as (y & Hy & Hgt' & _).
      assert (y = e') as -> by congruence.
      apply date_gt_Some in Hgt' as (x' & n' & Hx' & Hn' & Hlt').
      apply date_gt_Some in Hgt as (x & n & Hx & _ & _).
      rewrite Hx in Hn', Hv. rewrite Hx, Hx'. simpl.
      apply getSimTime_seek_lower in Hn'; [|by rewrite Hs|done..].
      apply Z.ltb_lt. lia.
  - split; [|done]. by apply findIndex_None.
Qed.

End Seeking.

Lemma seek_relocates_witness :
  pointer (seek id timestamp 5000 (Some 4000%Z)
             (constructor sample_log None 1%Q 0)) ≤ 3 ∧
  pointer (seek id timestamp 5000 (Some 10001%Z)
             (constructor sample_log None 1%Q 0)) = 3 ∧
  pointer (seek id timestamp 5000 (Some (-5)%Z)
             (constructor sample_log None 1%Q 0)) = 0.
Proof.
  split; [|by vm_compute].
  refine (proj1 (proj2 (proj2 (proj2 (proj2 (proj2 (proj2 (proj2 (proj2
    (seek_relocates id timestamp 5000 (Some 4000%Z)
       (constructor sample_log None 1%Q 0) _)))))))))).
  vm_compute. discriminate.
Defined.

Lemma step_forward_next_witness :
  activity (stepForward id timestamp 1000 1000 1000
              {| player := Some (constructor sample_log None 1%Q 0);
                 simTime := None; activity := [] |}) = [ev_ping].
Proof.
  assert (Forall (λ e, date_value (timestamp e))
            (id (events (constructor sample_log None 1%Q 0)))) as Hval.
  { cbv [id events constructor init sample_log]. simpl.
    repeat constructor; simpl; unfold maxTime; lia. }
  pose proof (step_forward_next id timestamp 1000 1000 1000
                {| player := Some (constructor sample_log None 1%Q 0);
                   simTime := None; activity := [] |}
                (constructor sample_log None 1%Q 0) eq_refl Hval) as H.
  destruct H as (e & p' & Hi & _ & _ & _ & Hd & _).
  rewrite Hd. injection Hi as <-. reflexivity.
Defined.

(** C9 as stated fails: three presses from the initial state of the sample
    log, with no wall-clock time passing, visit "ping" and "complete" but
    never "start". *)
Lemma steps_skip_first_event :
  ¬ steps_visit_every_event sample_log None 1%Q 0
      [(1000, 1000, 1000); (1000, 1000, 1000); (1000, 1000, 1000)]%Z.
Proof.
  intros H. specialize (H eq_refl). vm_compute in H. discriminate.
Qed.

Lemma malformed_record_blocks_witness :
  delivered
    (run_ticks id timestamp [1250; 6000]%Z
       (play 1000 1000 1000 1%positive None
          (constructor [ev_bad; ev_ping] (Some (Some 0%Z)) 1%Q 0))).2 = [].
Proof.
  refine (proj1 (proj2 (proj2 (proj2
    (malformed_record_blocks id timestamp [1250; 6000]%Z
       (play 1000 1000 1000 1%positive None
          (constructor [ev_bad; ev_ping] (Some (Some 0%Z)) 1%Q 0))
       0 ev_bad _ _ _))) _)).
  - reflexivity.
  - intros [x Hx]. discriminate.
  - simpl. lia.
  - reflexivity.
Defined.

(** C8 as stated fails: behind a record whose timestamp does not parse,
    "ping" is due at the second tick and is not delivered.  (On this log
    the comparator answers NaN for every pair, so the stable sort leaves
    the two records in input order.) *)
Lemma malformed_record_starves_log :
  ¬ delivers_well_formed_when_due [ev_bad; ev_ping] (Some (Some 0%Z)) 1%Q 0
      1000 1%positive [1250; 6000]%Z.
Proof.
  intros H. specialize (H ev_ping).
  assert (ev_ping ∈ ([] : list event)) as Hin.
  { refine (H _ _ _).
    - right. left.
    - by eexists.
    - reflexivity. }
  inversion Hin.
Qed.

(** ** The player in a store *)

Section Views.
Context {R1 R2 : Type}.
Variable g : R1 → R2.
Variable date2 : R2 → time.

Lemma findIndex_fmap (f : R2 → bool) (l : list R1) :
  Array.findIndex f (g <$> l) = Array.findIndex (λ r, f (g r)) l.
Proof.
  induction l as [|x l IH]; csimpl; [done|]. by rewrite IH.
Qed.

Lemma insert_fmap (x : R1) (l : list R1) :
  Array.insert (compareFn date2) (g x) (g <$> l) =
  g <$> Array.insert (compareFn (λ r, date2 (g r))) x l.
Proof.
  induction l as [|y l IH]; csimpl; [done|].
  rewrite IH. unfold Array.SortCompare, compareFn.
  by destruct (0 <? default 0 (date_sub (date2 (g x)) (date2 (g y))))%Z.
Qed.

Lemma sort_fmap (l : list R1) :
  Array.sort (compareFn date2) (g <$> l) =
  g <$> Array.sort (compareFn (λ r, date2 (g r))) l.
Proof.
  induction l as [|x l IH]; csimpl; [done|]. by rewrite IH, insert_fmap.
Qed.

Lemma tick_loop_fmap (now : time) (l : list R1) (ptr : nat) :
  tick_loop date2 now (g <$> l) ptr =
  ((tick_loop (λ r, date2 (g r)) now l ptr).1,
   fmap_signal g <$> (tick_loop (λ r, date2 (g r)) now l ptr).2).
Proof.
  revert ptr. induction l as [|x l IH]; intros ptr; csimpl; [done|].
  destruct (date_le (date2 (g x)) now); [|done].
  rewrite IH. by destruct (tick_loop _ now l (S ptr)).
Qed.

End Views.

Lemma heap_slice_spec (σ : Heap.store) (a : Heap.loc) :
  let b := (Heap.slice σ a).1 in
  let σ1 := (Heap.slice σ a).2 in
  Heap.arrays σ !! b = None ∧
  Heap.elems σ1 b = Heap.elems σ a ∧
  Heap.objects σ1 = Heap.objects σ ∧
  ∀ a', a' ≠ b → Heap.arrays σ1 !! a' = Heap.arrays σ !! a'.
Proof.
  simpl. split_and!.
  - apply not_elem_of_dom, is_fresh.
  - unfold Heap.elems at 1. simpl. by rewrite lookup_insert_eq.
  - done.
  - intros a' Hne. by rewrite lookup_insert_ne.
Qed.

Lemma heap_constructor_spec (σ : Heap.store) (input : Heap.loc)
    (startTime : option time) (speed0 : Q) (now : Z) :
  let built := Heap.constructor σ input startTime speed0 now in
  Heap.arrays σ !! events built.1 = None ∧
  Heap.elems built.2 (events built.1) =
    Array.sort (compareFn (Heap.date σ)) (Heap.elems σ input) ∧
  Heap.objects built.2 = Heap.objects σ ∧
  ∀ a', a' ≠ events built.1 →
        Heap.arrays built.2 !! a' = Heap.arrays σ !! a'.
Proof.
  destruct (heap_slice_spec σ input) as (Hfresh & Hcopy & Hobj & Hframe).
  unfold Heap.constructor. simpl in *. split_and!.
  - done.
  - unfold Heap.elems at 1. simpl. rewrite lookup_insert_eq. simpl.
    by rewrite Hcopy.
  - done.
  - intros a' Hne. rewrite lookup_insert_ne by done. by apply Hframe.
Qed.

Section Frame.
Context {A R : Type}.
Variable elems : A → list R.
Variable date : R → time.

(** No call replaces the array [this.events]. *)
Lemma exec_events (c : call) (p : EventPlayer A) :
  events (exec elems date c p).1 = events p.
Proof.
  destruct c; simpl; try done.
  - unfold play. simpl. by destruct (timer p).
  - apply pause_fields.
  - destruct (fire_step elems date now p) as (k & []). done.
Qed.

End Frame.

Lemma heap_exec_frame (c : call) (st : EventPlayer Heap.loc * Heap.store) :
  (Heap.exec c st).1.2 = st.2 ∧
  events (Heap.exec c st).1.1 = events st.1.
Proof.
  destruct st as [p σ]. unfold Heap.exec.
  pose proof (exec_events (Heap.elems σ) (Heap.date σ) c p) as He.
  destruct (exec (Heap.elems σ) (Heap.date σ) c p) as [p' out]. done.
Qed.

Lemma heap_exec_all_frame (cs : list call)
    (st : EventPlayer Heap.loc * Heap.store) :
  (Heap.exec_all cs st).1.2 = st.2 ∧
  events (Heap.exec_all cs st).1.1 = events st.1.
Proof.
  revert st. induction cs as [|c cs IH]; intros st; simpl; [done|].
  destruct (heap_exec_frame c st) as [H1 H2].
  destruct (Heap.exec c st) as [st1 out1]. simpl in *.
  destruct (IH st1) as [H3 H4].
  destruct (Heap.exec_all cs st1) as [st2 out2]. simpl in *.
  split; congruence.
Qed.

(** C10.  The constructor sorts an array of its own, allocated by
    [slice]: the caller's list and every record are as they were.  No
    call on the player and no press of the step button changes the store
    afterwards, and the player keeps its array. *)
Theorem events_never_mutated (σ : Heap.store) (input : Heap.loc)
    (startTime : option time) (speed0 : Q) (now : Z) (cs : list call) :
  is_Some (Heap.arrays σ !! input) →
  let built := Heap.constructor σ input startTime speed0 now in
  let final := (Heap.exec_all cs built).1 in
  events built.1 ≠ input ∧
  Heap.arrays σ !! events built.1 = None ∧
  Heap.elems built.2 (events built.1) =
    Array.sort (compareFn (Heap.date σ)) (Heap.elems σ input) ∧
  Heap.caller_data built.2 input = Heap.caller_data σ input ∧
  final.2 = built.2 ∧
  events final.1 = events built.1 ∧
  Heap.caller_data final.2 input = Heap.caller_data σ input ∧
  (∀ d now1 now2 now3,
     (Heap.stepForward now1 now2 now3 (d, final.2)).2 = final.2).
Proof.
  intros [l Hl] built final.
  destruct (heap_constructor_spec σ input startTime speed0 now)
    as (Hfresh & Hsorted & Hobj & Hframe).
  fold built in Hfresh, Hsorted, Hobj, Hframe.
  destruct (heap_exec_all_frame cs built) as [Hσ Hev].
  fold final in Hσ, Hev.
  assert (events built.1 ≠ input) as Hne by congruence.
  assert (Heap.caller_data built.2 input = Heap.caller_data σ input) as Hc.
  { unfold Heap.caller_data. rewrite Hobj, Hframe; done. }
  split_and!; try done. by rewrite Hσ.
Qed.

Lemma events_never_mutated_witness :
  Heap.arrays
    (Heap.exec_all
       [Play 1000 1000 1000 1%positive None; Tick 1250; Seek 2000 (Some 0%Z);
        Tick 7000; Pause]
       (Heap.constructor Heap.sample_store 1%positive None 1%Q 0)).1.2
    !! 1%positive
  = Some [12; 10; 11]%positive.
Proof.
  pose proof (events_never_mutated Heap.sample_store 1%positive None 1%Q 0
    [Play 1000 1000 1000 1%positive None; Tick 1250; Seek 2000 (Some 0%Z);
     Tick 7000; Pause] (ex_intro _ [12; 10; 11]%positive eq_refl)) as H.
  destruct H as (_ & _ & _ & _ & _ & _ & Hc & _).
  apply (f_equal fst) in Hc. exact Hc.
Defined.

(** Without [slice] the caller's list would not survive: sorting it in
    place reorders it. *)
Lemma sort_in_place_mutates :
  Heap.arrays (Heap.sort Heap.sample_store 1%positive) !! 1%positive
  = Some [10; 11; 12]%positive.
Proof. reflexivity. Qed.

(** ** The two players agree *)

Lemma view_getSimTime (σ : Heap.store) (now : Z) (p : EventPlayer Heap.loc) :
  getSimTime now (Heap.view_player σ p) = getSimTime now p.
Proof. done. Qed.

Lemma view_pause (σ : Heap.store) (p : EventPlayer Heap.loc) :
  pause (Heap.view_player σ p) = Heap.view_player σ (pause p).
Proof. unfold pause. simpl. by destruct (timer p). Qed.

Lemma view_tick (σ : Heap.store) (now : Z) (p : EventPlayer Heap.loc) :
  _tick id timestamp now (Heap.view_player σ p) =
  (Heap.view_player σ (_tick (Heap.elems σ) (Heap.date σ) now p).1,
   Heap.view_signal σ <$> (_tick (Heap.elems σ) (Heap.date σ) now p).2).
Proof.
  unfold _tick. rewrite view_getSimTime.
  cbn [events pointer Heap.view_player id]. unfold Heap.view at 1.
  rewrite <- fmap_drop, tick_loop_fmap.
  change (λ r, timestamp (Heap.obj σ r)) with (Heap.date σ).
  destruct (tick_loop (Heap.date σ) (getSimTime now p)
              (drop (pointer p) (Heap.elems σ (events p))) (pointer p))
    as [ptr out].
  cbn [fst snd]. unfold Heap.view. rewrite length_fmap.
  case_bool_decide; [rewrite <- view_pause|]; done.
Qed.

(** A call on the player in the store is the same call on the player over
    the list of records it stands for. *)
Lemma heap_exec_view (c : call) (p : EventPlayer Heap.loc) (σ : Heap.store) :
  exec id timestamp c (Heap.view_player σ p) =
  (Heap.view_player σ (Heap.exec c (p, σ)).1.1,
   Heap.view_signal σ <$> (Heap.exec c (p, σ)).2).
Proof.
  unfold Heap.exec. destruct c; cbn [exec].
  - unfold play. simpl. by destruct (timer p).
  - by rewrite view_pause.
  - done.
  - unfold seek. cbn [events Heap.view_player id fst snd].
    unfold Heap.view. rewrite findIndex_fmap, length_fmap. done.
  - unfold fire. cbn [timer Heap.view_player]. destruct (timer p); [|done].
    rewrite view_tick.
    by destruct (_tick (Heap.elems σ) (Heap.date σ) now p).
Qed.

Lemma view_init (σ : Heap.store) (b : Heap.loc) (startTime : option time)
    (speed0 : Q) (now : Z) :
  Heap.view_player σ (init (Heap.elems σ) (Heap.date σ) b startTime speed0 now)
  = init id timestamp (Heap.view σ b) startTime speed0 now.
Proof.
  unfold init, Heap.view_player, Heap.view, id. simpl.
  destruct startTime; [done|]. by destruct (Heap.elems σ b).
Qed.

(** The constructor in the store builds the player that [constructor]
    builds from the list of records. *)
Lemma heap_constructor_view (σ : Heap.store) (input : Heap.loc)
    (startTime : option time) (speed0 : Q) (now : Z) :
  let built := Heap.constructor σ input startTime speed0 now in
  Heap.view_player built.2 built.1 =
  constructor (Heap.view σ input) startTime speed0 now.
Proof.
  destruct (heap_constructor_spec σ input startTime speed0 now)
    as (_ & Hsorted & _ & _).
  cbn zeta in *.
  set (built := Heap.constructor σ input startTime speed0 now) in *.
  assert (Heap.obj built.2 = Heap.obj σ) as Hobj by done.
  assert (Heap.view built.2 (events built.1) =
          Array.sort (compareFn timestamp) (Heap.view σ input)) as Hview.
  { unfold Heap.view. rewrite Hobj, Hsorted. symmetry.
    apply (sort_fmap (Heap.obj σ) timestamp). }
  assert (built.1 = init (Heap.elems built.2) (Heap.date built.2)
                      (events built.1) startTime speed0 now) as -> by done.
  rewrite view_init. cbn [events init]. by rewrite Hview.
Qed.

(** ** The small log, run *)

(** Started at wall-clock 1000 and ticked until 4000 ms have passed,
    "start" and "ping" have been delivered and "complete" has not. *)
Example four_seconds_in :
  delivered
    (run_ticks id timestamp [1250; 1500; 3000; 5000]%Z
       (play 1000 1000 1000 1%positive None
          (constructor sample_log None 1%Q 0))).2
  = [ev_start; ev_ping].
Proof. reflexivity. Qed.

(** Records of one timestamp are delivered in the order of the input. *)
Example ties_in_input_order :
  let ping2 := Event (Some 4000%Z) "location_ping"%string "trip_2"%string in
  delivered
    (run_ticks id timestamp [9000]%Z
       (play 1000 1000 1000 1%positive None
          (constructor [ping2; ev_complete; ev_ping; ev_start] None 1%Q 0))).2
  = [ev_start; ping2; ev_ping].
Proof. reflexivity. Qed.

(** At a quarter of the speed the clock is cut to whole milliseconds. *)
Example quarter_speed_truncates :
  getSimTime 1003
    (play 1000 1000 1000 1%positive (Some (1 # 4)%Q)
       (constructor sample_log None 1%Q 0))
  = Some 0%Z.
Proof. reflexivity. Qed.

(** A seek to the timestamp of the last record puts the pointer on it;
    the next tick delivers it and exhausts the log. *)
Example seek_to_last :
  let p := seek id timestamp 2000 (Some 10000%Z)
             (constructor sample_log None 1%Q 0) in
  pointer p = 2 ∧
  delivered
    (run_ticks id timestamp [3250]%Z
       (play 3000 3000 3000 1%positive None p)).2 = [ev_complete] ∧
  timer
    (run_ticks id timestamp [3250]%Z
       (play 3000 3000 3000 1%positive None p)).1 = None.
Proof. by vm_compute. Qed.

(** Resumed five seconds after a pause, the clock has moved on by those
    five seconds. *)
Example resume_after_pause :
  let p := pause (play 1000 1000 1000 1%positive None
                    (constructor sample_log None 1%Q 0)) in
  simNow (play 6000 6000 6000 2%positive None p) = Some 5000%Z.
Proof. reflexivity. Qed.


(** * More of the player *)

Section PlayerInvariants.
Context {A R : Type}.
Variable elems : A → list R.
Variable date : R → time.
Implicit Types p : EventPlayer A.

Lemma seek_pointer_spec (now : Z) (t : time) p :
  date_value t →
  let ptr := pointer (seek elems date now t p) in
  let evs := elems (events p) in
  ptr ≤ length evs ∧
  (∀ j e, j < ptr → evs !! j = Some e → date_ge (date e) t = false) ∧
  (∀ e, evs !! ptr = Some e → date_ge (date e) t = true).
Proof.
  intros Ht. unfold seek. cbn [pointer]. rewrite (newDate_ofTime t Ht).
  destruct (Array.findIndex _ (elems (events p))) as [i|] eqn:E; cbn zeta.
  - apply findIndex_Some in E as (x & Hx & Hfx & Hlt).
    split_and!; [by apply lookup_lt_Some in Hx; lia|done|].
    intros e He. by simplify_eq.
  - apply findIndex_None in E. rewrite Forall_forall in E.
    split_and!; [done| |].
    + intros j e _ He. apply E. by eapply list_elem_of_lookup_2.
    + intros e He. apply lookup_lt_Some in He. lia.
Qed.

Lemma seek_pointer_bound (now : Z) (t : time) p :
  pointer (seek elems date now t p) ≤ length (elems (events p)).
Proof.
  unfold seek. cbn [pointer].
  destruct (Array.findIndex _ (elems (events p))) as [i|] eqn:E; [|done].
  apply findIndex_Some in E as (x & Hx & _). apply lookup_lt_Some in Hx. lia.
Qed.

Lemma exec_pointer_bound (c : call) p :
  pointer p ≤ length (elems (events p)) →
  pointer (exec elems date c p).1 ≤ length (elems (events p)).
Proof.
  intros Hp. destruct c; cbn [exec fst].
  - unfold play. simpl. by destruct (timer p).
  - by destruct (pause_fields p) as (_ & _ & _ & _ & -> & _).
  - done.
  - apply seek_pointer_bound.
  - destruct (fire_step elems date now p) as (k & []).
    rewrite step_pointer0. rewrite length_drop in step_bound0. lia.
Qed.

(** X1.  The pointer never leaves the log: whatever calls the player
    receives, [pointer] stays between 0 and the length of [events], and
    [events] stays the array the player was built with. *)
Theorem pointer_in_bounds (cs : list call) p :
  pointer p ≤ length (elems (events p)) →
  events (exec_all elems date cs p).1 = events p ∧
  pointer (exec_all elems date cs p).1 ≤ length (elems (events p)).
Proof.
  revert p. induction cs as [|c cs IH]; intros p Hp; simpl; [done|].
  pose proof (exec_pointer_bound c p Hp) as Hb.
  pose proof (exec_events elems date c p) as He.
  destruct (exec elems date c p) as [p1 o1]. simpl in *.
  rewrite <- He in Hb. destruct (IH p1 Hb) as [He' Hb'].
  destruct (exec_all elems date cs p1) as [p2 o2]. simpl in *.
  split; congruence.
Qed.

Lemma deliveries_due_app (cur : time) (tr1 tr2 : list (signal R)) :
  deliveries_due date cur tr1 →
  (∀ cur', deliveries_due date cur' tr2) →
  deliveries_due date cur (tr1 ++ tr2).
Proof.
  intros H1 H2. revert cur H1.
  induction tr1 as [|[t|e] tr1 IH]; intros cur H1; simpl in *; [done|auto|].
  destruct H1. auto.
Qed.

Lemma deliveries_due_onEvent (cur : time) (l : list R) :
  Forall (λ e, date_le (date e) cur = true) l →
  deliveries_due date cur (onEvent <$> l).
Proof. induction 1; csimpl; auto. Qed.

Lemma fire_deliveries_due (now : Z) p (cur : time) :
  deliveries_due date cur (fire elems date now p).2.
Proof.
  unfold fire. destruct (timer p); [|done].
  destruct (tick_spec elems date now p) as (k & -> & _ & _ & Hdue & _).
  simpl. by apply deliveries_due_onEvent.
Qed.

(** X2.  No record is delivered early: in the trace of any sequence of
    calls, every [onEvent] belongs to a tick, and the timestamp of its
    record parses and is not later than the time that tick announced with
    [onTick]. *)
Theorem no_early_delivery (cs : list call) p :
  deliveries_due date None (exec_all elems date cs p).2.
Proof.
  generalize (None : time). revert p.
  induction cs as [|c cs IH]; intros p cur; simpl; [done|].
  assert (deliveries_due date cur (exec elems date c p).2) as Hc.
  { destruct c; simpl; try done. apply fire_deliveries_due. }
  destruct (exec elems date c p) as [p1 o1].
  pose proof (IH p1) as IH'.
  destruct (exec_all elems date cs p1) as [p2 o2]. simpl in *.
  by apply deliveries_due_app.
Qed.

End PlayerInvariants.

Section Ordered.
Context {A R : Type}.
Variable elems : A → list R.
Variable date : R → time.
Implicit Types p : EventPlayer A.

Lemma ascending_lookup (l : list R) (i j : nat) (x y : R) :
  ascending date l → i < j → l !! i = Some x → l !! j = Some y →
  date_le (date x) (date y) = true.
Proof.
  intros Hl. revert i j. induction Hl as [|z l Hl IH Hz]; intros i j Hij Hi Hj.
  - done.
  - destruct j as [|j]; [lia|]. simpl in Hj. destruct i as [|i]; simpl in Hi.
    + simplify_eq. rewrite Forall_forall in Hz. apply Hz.
      by eapply list_elem_of_lookup_2.
    + eapply (IH i j); [lia|done..].
Qed.

Lemma date_le_trans (a b c : time) :
  date_le a b = true → date_le b c = true → date_le a c = true.
Proof.
  intros (x & y & -> & -> & Hxy)%date_le_Some (y' & z & [= <-] & -> & Hyz)%date_le_Some.
  simpl. apply Z.leb_le. lia.
Qed.

(** X3.  A tick leaves nothing due behind: on a log in ascending order,
    once a tick has run no record at or after the pointer has a timestamp
    that is not later than the time of that tick. *)
Theorem tick_leaves_nothing_due (now : Z) p (j : nat) (e : R) :
  ascending date (elems (events p)) →
  pointer (_tick elems date now p).1 ≤ j →
  elems (events p) !! j = Some e →
  date_le (date e) (simNow (_tick elems date now p).1) = false.
Proof.
  intros Hasc Hj He.
  destruct (tick_spec elems date now p)
    as (k & _ & Hp & _ & _ & Hstop & _ & _ & _ & _ & Hn & _).
  cbn zeta in *. rewrite Hn. rewrite Hp in Hj.
  destruct (lookup_lt_is_Some_2 (elems (events p)) (pointer p + k))
    as [e0 He0]; [apply lookup_lt_Some in He; lia|].
  specialize (Hstop e0 He0).
  destruct (decide (pointer p + k = j)) as [<-|Hne]; [by simplify_eq|].
  assert (date_le (date e0) (date e) = true) as Hle.
  { eapply (ascending_lookup _ (pointer p + k) j); [done|lia|done..]. }
  destruct (date_le (date e) (getSimTime now p)) eqn:E; [|done].
  by rewrite (date_le_trans _ _ _ Hle E) in Hstop.
Qed.

(** X4.  After a seek, ticks deliver nothing from before the target: on
    a log in ascending order every record delivered after [seek(t)], up
    to the next seek, has a timestamp that is not before [t]. *)
Theorem ticks_after_seek_from_target (now : Z) (t : time) (ws : list Z) p :
  ascending date (elems (events p)) → date_value t →
  Forall (λ e, date_ge (date e) t = true)
    (delivered (run_ticks elems date ws (seek elems date now t p)).2).
Proof.
  intros Hasc Ht.
  destruct (seek_pointer_spec elems date now t p Ht) as (_ & _ & Hat).
  destruct (run_ticks_step elems date ws (seek elems date now t p))
    as (k & []).
  rewrite step_out0. cbn [events seek] in *.
  set (ptr := pointer (seek elems date now t p)) in *. cbn zeta in Hat.
  apply Forall_lookup. intros i x Hx.
  apply lookup_take_Some in Hx as [Hx _]. rewrite lookup_drop in Hx.
  destruct (lookup_lt_is_Some_2 (elems (events p)) ptr) as [e0 He0];
    [apply lookup_lt_Some in Hx; lia|].
  specialize (Hat e0 He0).
  destruct i as [|i]; [rewrite Nat.add_0_r in Hx; by simplify_eq|].
  unfold date_ge in *. eapply date_le_trans; [exact Hat|].
  eapply (ascending_lookup _ ptr (ptr + S i)); [done|lia|done..].
Qed.

End Ordered.

(** ** The clock, again *)

Lemma Qtrunc_mono (q q' : Q) : (q <= q')%Q → (Qtrunc q <= Qtrunc q')%Z.
Proof.
  intros H. unfold Qtrunc.
  destruct (Qle_bool 0 q) eqn:E, (Qle_bool 0 q') eqn:E'.
  - by apply Qfloor_resp_le.
  - apply Qle_bool_iff in E.
    assert (Qle_bool 0 q' = true) as E''
      by (apply Qle_bool_iff; by eapply Qle_trans).
    congruence.
  - apply Qle_bool_iff in E'.
    assert (q <= 0)%Q as Hq.
    { apply Qlt_le_weak, Qnot_le_lt. intros Hq. apply Qle_bool_iff in Hq.
      congruence. }
    etrans; [apply (Qceiling_resp_le _ _ Hq)|].
    etrans; [|apply (Qfloor_resp_le _ _ E')].
    by vm_compute.
  - by apply Qceiling_resp_le.
Qed.

Section ClockOrder.
Context {A : Type}.
Implicit Types p : EventPlayer A.

(** X5.  With a speed that is not negative the clock never runs
    backwards: read at a later wall-clock instant from the same anchor, it
    shows a time that is not earlier. *)
Theorem clock_monotone (w w' : Z) (n n' : Z) p :
  (0 <= speed p)%Q → (w <= w')%Z →
  getSimTime w p = Some n → getSimTime w' p = Some n' → (n <= n')%Z.
Proof.
  intros Hs Hw. unfold getSimTime.
  destruct (baseReal p) as [a|]; [destruct (a =? 0)%Z|];
    try (intros -> [= ->]; lia).
  intros (q & Hq & -> & _)%TimeClip_Some (q' & Hq' & -> & _)%TimeClip_Some.
  destruct (baseSim p) as [b|]; [|done].
  cbn [ofTime fmap option_fmap option_map num_add] in Hq, Hq'.
  simplify_eq. apply Qtrunc_mono, Qplus_le_r, Qmult_le_compat_r; [|done].
  rewrite <- Zle_Qle. lia.
Qed.

(** A clock whose anchor is at or before [w] shows no less than the
    anchored time. *)
Lemma getSimTime_lower (w a b n : Z) p :
  (0 <= speed p)%Q → baseReal p = Some a → (a <= w)%Z →
  baseSim p = Some b → getSimTime w p = Some n → (b <= n)%Z.
Proof.
  intros Hs Ha Hw Hb. unfold getSimTime. rewrite Ha, Hb.
  destruct (a =? 0)%Z.
  - intros (q & [= <-] & -> & _)%TimeClip_Some. by rewrite Qtrunc_inject_Z.
  - intros (q & Hq & -> & _)%TimeClip_Some.
    cbn [ofTime fmap option_fmap option_map num_add] in Hq. simplify_eq.
    apply Qtrunc_lower.
    rewrite <- (Qplus_0_r (inject_Z b)) at 1. apply Qplus_le_r.
    apply Qmult_le_0_compat; [|done].
    change 0%Q with (inject_Z 0). rewrite <- Zle_Qle. lia.
Qed.

End ClockOrder.

(** ** The constructor, again *)

Section SortedInput.
Context {R : Type}.
Variable date : R → time.

(** X6.  A log that is already in ascending order is kept as it is, ties
    included, so sorting twice is sorting once: the sort of the
    constructor changes nothing in a list that [load] has sorted with the
    same comparator. *)
Theorem sort_keeps_sorted_log (l : list R) :
  (ascending date l → Array.sort (compareFn date) l = l) ∧
  (Forall (well_formed date) l →
   Array.sort (compareFn date) (Array.sort (compareFn date) l) =
   Array.sort (compareFn date) l).
Proof.
  assert (∀ l', ascending date l' → Array.sort (compareFn date) l' = l')
    as Hid.
  { intros l' Hl. induction Hl as [|x l' Hl IH Hx]; simpl; [done|].
    rewrite IH. destruct l' as [|y l']; simpl; [done|].
    rewrite SortCompare_pos.
    apply Forall_cons in Hx as [Hxy _].
    apply date_le_Some in Hxy as (a & b & -> & -> & Hab). simpl.
    by destruct (Z.ltb_spec b a); [lia|]. }
  split; [apply Hid|]. intros Hwf. by apply Hid, sort_ascending.
Qed.

End SortedInput.

Lemma sort_keeps_sorted_log_witness :
  Array.sort (compareFn timestamp) [ev_start; ev_ping; ev_complete] =
  [ev_start; ev_ping; ev_complete].
Proof.
  apply (proj1 (sort_keeps_sorted_log timestamp
                  [ev_start; ev_ping; ev_complete])).
  repeat constructor.
Defined.

(** X7.  Built without a start time, the player starts at the earliest
    timestamp of the log, whatever the order of the input, and at the
    wall-clock instant of construction when the log is empty; it holds
    every record of the input exactly once, stands at position 0 and is
    not running. *)
Theorem constructor_starts_at_earliest (log : list event) (speed0 : Q)
    (c : Z) :
  Forall (well_formed timestamp) log →
  let p := constructor log None speed0 c in
  events p ≡ₚ log ∧ pointer p = 0 ∧ timer p = None ∧ baseReal p = None ∧
  (log = [] → baseSim p = Some c) ∧
  (log ≠ [] →
   ∃ e, e ∈ log ∧ baseSim p = timestamp e ∧
        ∀ e', e' ∈ log → date_le (timestamp e) (timestamp e') = true).
Proof.
  intros Hwf p.
  pose proof (sort_perm timestamp log) as Hperm.
  pose proof (sort_ascending timestamp log Hwf) as Hasc.
  assert (events p = Array.sort (compareFn timestamp) log) as He by done.
  assert (baseSim p = match Array.sort (compareFn timestamp) log with
                      | e :: _ => timestamp e
                      | [] => Some c
                      end) as Hb by done.
  assert (pointer p = 0 ∧ timer p = None ∧ baseReal p = None)
    as (Hp & Ht & Hr) by done.
  clearbody p. rewrite He. split_and!; [done..| |].
  - intros ->. by rewrite Hb.
  - intros Hne. rewrite Hb.
    destruct (Array.sort (compareFn timestamp) log) as [|e l] eqn:Es.
    { apply Permutation_nil_l in Hperm. done. }
    exists e. split_and!; [rewrite <- Hperm; left|done|].
    intros e' He'. rewrite <- Hperm in He'.
    apply elem_of_cons in He' as [->|Hin].
    + rewrite Forall_forall in Hwf.
      destruct (Hwf e) as [x Hx]; [rewrite <- Hperm; left|].
      rewrite Hx. simpl. apply Z.leb_le. lia.
    + apply StronglySorted_inv in Hasc as [_ Hall].
      rewrite Forall_forall in Hall. by apply Hall.
Qed.

Lemma constructor_starts_at_earliest_witness :
  ∃ e, e ∈ sample_log ∧
       baseSim (constructor sample_log None 1%Q 77) = timestamp e ∧
       ∀ e', e' ∈ sample_log → date_le (timestamp e) (timestamp e') = true.
Proof.
  refine (proj2 (proj2 (proj2 (proj2 (proj2
    (constructor_starts_at_earliest sample_log 1%Q 77 _))))) _).
  - repeat constructor; by eexists.
  - discriminate.
Defined.

(** ** A step, then play *)

Section StepThenPlay.
Context {A R : Type}.
Variable elems : A → list R.
Variable date : R → time.
Implicit Types p : EventPlayer A.

(** Seeking to the timestamp of the first record that is later than
    [now] puts the pointer on that record. *)
Lemma seek_to_next_pointer (now : time) (now2 : Z) (i : nat) (e : R) p :
  Array.findIndex (λ x, date_gt (date x) now) (elems (events p)) = Some i →
  elems (events p) !! i = Some e → date_value (date e) →
  pointer (seek elems date now2 (date e) p) = i.
Proof.
  intros Ei Hi Hv. apply findIndex_Some in Ei as (e1 & Hi1 & Hgt & Hlt).
  assert (e1 = e) as -> by congruence.
  apply date_gt_Some in Hgt as (x & n & Hx & Hnow & Hnx).
  unfold seek. cbn [pointer]. rewrite (newDate_ofTime _ Hv).
  destruct (Array.findIndex _ (elems (events p))) as [k|] eqn:Ek.
  - apply findIndex_Some in Ek as (y & Hk & Hge & Hmin).
    destruct (Nat.lt_trichotomy k i) as [Hki|[->|Hik]]; [|done|].
    + exfalso. specialize (Hlt k y Hki Hk).
      unfold date_ge in Hge. rewrite Hx in Hge. rewrite Hnow in Hlt.
      destruct (date y) as [z|]; simpl in *; [|done].
      apply Z.leb_le in Hge. apply Z.ltb_ge in Hlt. lia.
    + exfalso. specialize (Hmin i e Hik Hi).
      unfold date_ge in Hmin. rewrite Hx in Hmin. simpl in Hmin.
      apply Z.leb_gt in Hmin. lia.
  - apply findIndex_None in Ek. rewrite Forall_forall in Ek.
    exfalso. specialize (Ek e (list_elem_of_lookup_2 _ _ _ Hi)).
    unfold date_ge in Ek. rewrite Hx in Ek. simpl in Ek.
    apply Z.leb_gt in Ek. lia.
Qed.

(** X8.  The record a step has shown is delivered once more when
    playback resumes: after [stepForward] has put a record at the head of
    the activity list, the first tick after [play] passes that same record
    to [onEvent] first (speeds not negative, wall clock not going back,
    clock in the range of [Date]). *)
Theorem step_then_play_redelivers (now1 now2 now3 w1 w2 w3 w4 : Z)
    (h : handle) (s : option Q) (d : Dashboard) p (i : nat) (e : R) (n : Z) :
  player d = Some p →
  Array.findIndex (λ x, date_gt (date x) (getSimTime now1 p))
    (elems (events p)) = Some i →
  elems (events p) !! i = Some e →
  date_value (date e) →
  (0 <= speed p)%Q → (0 <= default (speed p) s)%Q →
  (now2 <= w1)%Z → (w3 <= w4)%Z →
  let d' := stepForward elems date now1 now2 now3 d in
  let p' := seek elems date now2 (date e) (pause p) in
  getSimTime w4 (play w1 w2 w3 h s p') = Some n →
  player d' = Some p' ∧
  head (activity d') = Some e ∧
  ∃ rest,
    delivered (fire elems date w4 (play w1 w2 w3 h s p')).2 = e :: rest.
Proof.
  intros Hpl Ei Hi Hv Hs Hs' Hw1 Hw4 d' p' Hn.
  destruct (pause_fields p) as (He & Hsp & Hr & Hb & Hp & _ & Ht).
  assert (d' = {| player := Some p';
                  simTime := Some (getSimTime now3 p');
                  activity := take 300 (e :: activity d) |}) as Hd'.
  { unfold d', stepForward. rewrite Hpl. cbn zeta.
    by rewrite getSimTime_pause, He, Ei, Hi. }
  assert (pointer p' = i) as Hptr.
  { eapply seek_to_next_pointer; by rewrite ?He. }
  assert (timer p' = None ∧ events p' = events p ∧ speed p' = speed p ∧
          baseReal p' = Some now2 ∧ baseSim p' = date e)
    as (Ht' & He' & Hsp' & Hr' & Hb').
  { unfold p', seek. cbn. by rewrite Ht, He, Hsp. }
  clearbody p'.
  set (p'' := play w1 w2 w3 h s p') in *.
  assert (timer p'' = Some h ∧ events p'' = events p ∧ pointer p'' = i ∧
          speed p'' = default (speed p) s ∧ baseReal p'' = Some w3 ∧
          baseSim p'' = getSimTime w1 p')
    as (Ht'' & He'' & Hp'' & Hsp'' & Hr'' & Hb'').
  { unfold p'', play. cbn. rewrite Ht'. cbn. by rewrite He', Hsp', Hptr. }
  clearbody p''.
  apply findIndex_Some in Ei as (e1 & Hi1 & Hgt & _).
  assert (e1 = e) as -> by congruence.
  apply date_gt_Some in Hgt as (de & now & Hde & _ & _).
  rewrite Hde in Hb'.
  destruct (getSimTime w1 p') as [x|] eqn:Ex; cycle 1.
  { exfalso. revert Hn. unfold getSimTime. rewrite Hr'', Hb''.
    by destruct (w3 =? 0)%Z. }
  assert (de <= x)%Z as Hx.
  { eapply (getSimTime_lower w1 now2 de x p'); by rewrite ?Hsp'. }
  assert (x <= n)%Z as Hxn.
  { eapply (getSimTime_lower w4 w3 x n p''); by rewrite ?Hsp''. }
  rewrite Hd'. split_and!; [done|done|].
  unfold fire. rewrite Ht''. unfold _tick. rewrite Hn, He'', Hp''.
  rewrite (drop_S _ _ _ Hi). cbn [tick_loop]. rewrite Hde. cbn [date_le].
  rewrite (proj2 (Z.leb_le de n)) by lia.
  destruct (tick_loop date (Some n) (drop (S i) (elems (events p))) (S i))
    as [ptr out].
  eexists. reflexivity.
Qed.

End StepThenPlay.

(** * The dashboard component *)

Section Feed.
Context {A R : Type}.
Variable elems : A → list R.
Variable date : R → time.

Lemma take_app_take (n : nat) (l1 l2 : list R) :
  take n (l1 ++ take n l2) = take n (l1 ++ l2).
Proof.
  rewrite !take_app. f_equal. rewrite take_take. f_equal. lia.
Qed.

Lemma foldl_on_signal (d : @Dashboard A R) (tr : list (signal R)) :
  length (activity d) ≤ 300 →
  player (foldl on_signal d tr) = player d ∧
  activity (foldl on_signal d tr) =
    take 300 (reverse (delivered tr) ++ activity d).
Proof.
  revert d. induction tr as [|[t|e] tr IH]; intros d Hd.
  - simpl. by rewrite take_ge.
  - apply (IH {| player := player d; simTime := Some t;
                 activity := activity d |}). done.
  - destruct (IH {| player := player d; simTime := simTime d;
                    activity := take 300 (e :: activity d) |})
      as [Hp Ha].
    { simpl. rewrite length_take. lia. }
    split; [done|]. cbn [foldl on_signal delivered omap]. rewrite Ha.
    cbn [activity]. rewrite take_app_take.
    change (delivered (onEvent e :: tr)) with (e :: delivered tr).
    by rewrite reverse_cons, <- app_assoc.
Qed.

Lemma timerTick_spec (now : Z) (a : @App A R) (pl : EventPlayer A) :
  player (ui a) = Some pl → length (activity (ui a)) ≤ 300 →
  player (ui (timerTick elems date now a)) =
    Some (fire elems date now pl).1 ∧
  activity (ui (timerTick elems date now a)) =
    take 300 (reverse (delivered (fire elems date now pl).2)
              ++ activity (ui a)) ∧
  isPlaying (timerTick elems date now a) = isPlaying a ∧
  speedSel (timerTick elems date now a) = speedSel a ∧
  mergedEvents (timerTick elems date now a) = mergedEvents a.
Proof.
  intros Hpl Ha. unfold timerTick. rewrite Hpl.
  destruct (fire elems date now pl) as [pl' tr]. cbn [ui fst snd].
  destruct (foldl_on_signal
              {| player := Some pl'; simTime := simTime (ui a);
                 activity := activity (ui a) |} tr Ha) as [H1 H2].
  by rewrite H1, H2.
Qed.

Lemma act_all_ticks_feed (ws : list Z) (a : @App A R) (pl : EventPlayer A) :
  player (ui a) = Some pl → length (activity (ui a)) ≤ 300 →
  let a' := act_all elems date (TimerTick <$> ws) a in
  player (ui a') = Some (run_ticks elems date ws pl).1 ∧
  activity (ui a') =
    take 300 (reverse (delivered (run_ticks elems date ws pl).2)
              ++ activity (ui a)) ∧
  length (activity (ui a')) ≤ 300.
Proof.
  revert a pl. induction ws as [|w ws IH]; intros a pl Hpl Ha; cbn zeta.
  - simpl. rewrite take_ge by done. done.
  - change (act_all elems date (TimerTick <$> w :: ws) a)
      with (act_all elems date (TimerTick <$> ws) (timerTick elems date w a)).
    destruct (timerTick_spec w a pl Hpl Ha) as (Hp1 & Ha1 & _).
    destruct (IH (timerTick elems date w a) _ Hp1) as (Hp2 & Ha2 & Hl2).
    { rewrite Ha1, length_take. lia. }
    cbn [run_ticks].
    destruct (fire elems date w pl) as [p1 o1]. simpl in *.
    destruct (run_ticks elems date ws p1) as [p2 o2]. simpl in *.
    split_and!; [done| |done].
    rewrite Ha2, Ha1, take_app_take, delivered_app, reverse_app.
    by rewrite <- app_assoc.
Qed.

(** X9.  The activity feed holds the records delivered last, newest
    first, 300 at most: after any run of timer ticks the list is the
    delivered records in reverse order in front of what it held, cut to
    300 entries, and the player is the one the ticks leave. *)
Theorem feed_is_last_300 (ws : list Z) (a : @App A R) (pl : EventPlayer A) :
  player (ui a) = Some pl → length (activity (ui a)) ≤ 300 →
  let a' := act_all elems date (TimerTick <$> ws) a in
  player (ui a') = Some (run_ticks elems date ws pl).1 ∧
  activity (ui a') =
    take 300 (reverse (delivered (run_ticks elems date ws pl).2)
              ++ activity (ui a)) ∧
  length (activity (ui a')) ≤ 300.
Proof.
  intros Hpl Ha a'.
  destruct (act_all_ticks_feed ws a pl Hpl Ha) as (H1 & H2 & H3).
  split_and!; [exact H1|exact H2|exact H3].
Qed.

End Feed.

Section Handlers.
Context {A R : Type}.
Variable elems : A → list R.
Variable date : R → time.
Implicit Types a : @App A R.

Lemma foldl_on_signal_player (d : @Dashboard A R) (tr : list (signal R)) :
  player (foldl on_signal d tr) = player d.
Proof.
  revert d. induction tr as [|[t|e] tr IH]; intros d; simpl; [done|..];
    by rewrite IH.
Qed.

Lemma foldl_on_signal_length (d : @Dashboard A R) (tr : list (signal R)) :
  length (activity d) ≤ 300 →
  length (activity (foldl on_signal d tr)) ≤ 300.
Proof.
  revert d. induction tr as [|[t|e] tr IH]; intros d Hd; simpl; [done|..];
    apply IH; simpl; [done|]. rewrite length_take. lia.
Qed.

Lemma timerTick_player (now : Z) a (pl : EventPlayer A) :
  player (ui a) = Some pl →
  player (ui (timerTick elems date now a)) = Some (fire elems date now pl).1 ∧
  isPlaying (timerTick elems date now a) = isPlaying a.
Proof.
  intros Hpl. unfold timerTick. rewrite Hpl.
  destruct (fire elems date now pl) as [pl' tr]. cbn [ui fst isPlaying].
  by rewrite foldl_on_signal_player.
Qed.

Lemma act_ok (x : action) a : app_ok elems a → app_ok elems (act elems date x a).
Proof.
  intros [Hlen Hpl]. destruct x; cbn [act].
  - unfold togglePlay. destruct (player (ui a)) as [pl|] eqn:E;
      [|by split; rewrite ?E].
    destruct Hpl as [Hrun Hptr].
    destruct (isPlaying a); (split; [done|]); cbn [ui player isPlaying].
    + destruct (pause_fields pl) as (-> & _ & _ & _ & -> & _ & ->).
      split; [by intros [? ?]|done].
    + split; [done|]. unfold play. cbn. by destruct (timer pl).
  - unfold reset. destruct (player (ui a)) as [pl|] eqn:E;
      [|by split; rewrite ?E].
    split; [simpl; lia|]. cbn [ui player isPlaying].
    destruct (pause_fields pl) as (He & _ & _ & _ & _ & _ & Ht).
    split; [cbn [timer seek]; rewrite Ht; by intros [? ?]|].
    etrans; [apply seek_pointer_bound|]. cbn [events seek]. by rewrite He.
  - unfold step, stepForward, app_ok. cbn [ui isPlaying].
    destruct (player (ui a)) as [pl|] eqn:E; [|by rewrite E].
    destruct Hpl as [Hrun Hptr].
    destruct (pause_fields pl) as (He & _ & _ & _ & Hp & _ & Ht).
    destruct (Array.findIndex _ _) as [i|];
      [destruct (elems (events (pause pl)) !! i) as [e|]|];
      cbn [player activity].
    + split; [rewrite length_take; lia|].
      split; [cbn; rewrite Ht; by intros [? ?]|].
      etrans; [apply seek_pointer_bound|]. done.
    + split; [done|]. rewrite Ht, He, Hp. split; [by intros [? ?]|done].
    + split; [done|]. rewrite Ht, He, Hp. split; [by intros [? ?]|done].
  - unfold selectSpeed. destruct (Qeq_bool s (speedSel a)); [done|].
    split; [done|]. cbn [ui player isPlaying].
    by destruct (player (ui a)).
  - destruct (player (ui a)) as [pl|] eqn:E; cycle 1.
    { unfold timerTick. rewrite E. by split; rewrite ?E. }
    destruct Hpl as [Hrun Hptr].
    destruct (timerTick_player now a pl E) as [Hp Hi].
    split.
    + unfold timerTick. rewrite E.
      destruct (fire elems date now pl) as [pl' tr]. cbn [ui].
      by apply foldl_on_signal_length.
    + rewrite Hp, Hi.
      pose proof (exec_pointer_bound elems date (Tick now) pl Hptr) as Hb.
      pose proof (exec_events elems date (Tick now) pl) as He.
      cbn [exec] in Hb, He. rewrite He. split; [|done].
      destruct (fire_step elems date now pl) as (k & []).
      intros Hs. apply Hrun.
      destruct step_timer0 as [<-|[Hn _]]; [done|].
      rewrite Hn in Hs. by destruct Hs.
Qed.

Lemma act_all_ok (xs : list action) a :
  app_ok elems a → app_ok elems (act_all elems date xs a).
Proof.
  revert a. induction xs as [|x xs IH]; intros a Ha; [done|].
  apply (IH (act elems date x a)). by apply act_ok.
Qed.

End Handlers.

(** X10.  Whatever is clicked and whenever the timer fires after the
    data has loaded, the activity list never has more than 300 entries,
    the flag [isPlaying] is set whenever the interval of the player runs,
    and the pointer of the player stays within its log. *)
Theorem dashboard_invariant (results : list trip) (c now1 now2 : Z)
    (xs : list action) :
  app_ok id (act_all id timestamp xs (loaded results c now1 now2)).
Proof.
  apply act_all_ok. unfold loaded, app_ok. cbn [ui activity player isPlaying].
  split; [simpl; lia|].
  destruct (Array.sort (compareFn timestamp) (results ≫= events_of));
    [done|].
  split; [by intros [? ?]|]. simpl. lia.
Qed.

Section Buttons.
Context {A R : Type}.
Variable elems : A → list R.
Variable date : R → time.
Implicit Types a : @App A R.

(** X11.  When the log runs out the player stops by itself but the flag
    [isPlaying] stays set, so the Play/Pause button has to be pressed
    twice to start again: the first press only clears the flag and leaves
    the player stopped, the second one starts a new interval. *)
Theorem play_button_after_exhaustion (now now1 now2 now3 m1 m2 m3 : Z)
    (h h' : handle) a (pl : EventPlayer A) :
  player (ui a) = Some pl → isPlaying a = true → is_Some (timer pl) →
  length (elems (events pl)) ≤ pointer (_tick elems date now pl).1 →
  let a1 := timerTick elems date now a in
  let a2 := togglePlay now1 now2 now3 h a1 in
  let a3 := togglePlay m1 m2 m3 h' a2 in
  (∃ p1, player (ui a1) = Some p1 ∧ timer p1 = None ∧
         player (ui a2) = Some p1) ∧
  isPlaying a1 = true ∧ isPlaying a2 = false ∧ isPlaying a3 = true ∧
  (∃ p3, player (ui a3) = Some p3 ∧ timer p3 = Some h').
Proof.
  intros Hpl Hplay [h0 Ht] Hend a1 a2 a3.
  destruct (timerTick_player elems date now a pl Hpl) as [Hp1 Hi1].
  fold a1 in Hp1, Hi1. unfold fire in Hp1. rewrite Ht in Hp1.
  pose proof (tick_exhausted elems date now pl Hend) as Hnone.
  set (p1 := (_tick elems date now pl).1) in *. clearbody p1 a1.
  assert (player (ui a2) = Some p1 ∧ isPlaying a2 = false) as [Hp2 Hi2].
  { unfold a2, togglePlay. rewrite Hp1, Hi1, Hplay. cbn.
    unfold pause. by rewrite Hnone. }
  clearbody a2.
  assert (player (ui a3) = Some (play m1 m2 m3 h' (Some (speedSel a2)) p1) ∧
          isPlaying a3 = true) as [Hp3 Hi3].
  { unfold a3, togglePlay. by rewrite Hp2, Hi2. }
  split_and!; [by exists p1|by rewrite Hi1|done..|].
  eexists. split; [exact Hp3|]. unfold play. cbn. by rewrite Hnone.
Qed.

Lemma run_to_exhaustion_delivers_all (ws : list Z) (p : EventPlayer A) :
  pointer p = 0 → is_Some (timer p) →
  timer (run_ticks elems date ws p).1 = None →
  delivered (run_ticks elems date ws p).2 = elems (events p).
Proof.
  intros Hp [h Ht] Hend.
  destruct (run_ticks_step elems date ws p) as (k & []).
  destruct step_timer0 as [E|[_ Hlen]]; [congruence|].
  rewrite step_out0, Hp, drop_0, take_ge; [done|lia].
Qed.

(** X12.  Reset rewinds for a full replay: with the first record of the
    log readable, Reset stops the player, puts the clock on the first
    timestamp and the pointer on the first record, and empties the
    activity list; when playback is started again and runs until the log
    is exhausted, the list holds the whole log again, newest first, cut
    to 300. *)
Theorem reset_replays (now now1 now2 now3 : Z) (h : handle) (ws : list Z)
    a (pl : EventPlayer A) (e : R) (rest : list R) (b : Z) :
  player (ui a) = Some pl →
  mergedEvents a = elems (events pl) →
  elems (events pl) = e :: rest →
  date e = Some b → date_value (Some b) →
  let a1 := reset elems date now a in
  let a2 := act_all elems date (TimerTick <$> ws)
              (togglePlay now1 now2 now3 h a1) in
  (∃ p1, player (ui a1) = Some p1 ∧ pointer p1 = 0 ∧ timer p1 = None ∧
         simNow p1 = Some b ∧ events p1 = events pl) ∧
  activity (ui a1) = [] ∧ isPlaying a1 = false ∧
  (∀ p2, player (ui a2) = Some p2 → timer p2 = None →
         activity (ui a2) = take 300 (reverse (elems (events pl)))).
Proof.
  intros Hpl Hm Hevs Hd Hv a1 a2.
  destruct (pause_fields pl) as (He & _ & _ & _ & _ & _ & Ht).
  set (p1 := seek elems date now (Some b) (pause pl)).
  assert (a1 = {| ui := {| player := Some p1; simTime := simTime (ui a);
                           activity := [] |};
                  isPlaying := false; speedSel := speedSel a;
                  mergedEvents := mergedEvents a |}) as Ha1.
  { unfold a1, reset. by rewrite Hpl, Hm, Hevs, Hd. }
  assert (pointer p1 = 0 ∧ timer p1 = None ∧ simNow p1 = Some b ∧
          events p1 = events pl) as (Hp1 & Ht1 & Hn1 & He1).
  { unfold p1, seek. rewrite (newDate_ofTime _ Hv).
    cbn [pointer timer simNow events]. rewrite He, Hevs, Ht.
    cbn [Array.findIndex]. rewrite Hd. unfold date_ge. cbn [date_le].
    by rewrite Z.leb_refl. }
  clearbody p1 a1. subst a1. cbn [ui player activity isPlaying] in *.
  split_and!; [by exists p1|done..|].
  intros p2 Hp2 Ht2.
  set (p1' := play now1 now2 now3 h (Some (speedSel a)) p1) in *.
  assert (pointer p1' = 0 ∧ timer p1' = Some h ∧ events p1' = events pl)
    as (Hp' & Ht' & He').
  { unfold p1', play. cbn. rewrite Ht1. cbn. by rewrite Hp1, He1. }
  set (a1' := togglePlay now1 now2 now3 h _) in *.
  assert (player (ui a1') = Some p1' ∧ activity (ui a1') = [])
    as [Hpl' Hact'] by done.
  clearbody a1' p1'.
  destruct (act_all_ticks_feed elems date ws a1' p1' Hpl')
    as (Hq & Hfeed & _); [rewrite Hact'; simpl; lia|].
  fold a2 in Hq, Hfeed. rewrite Hp2 in Hq. injection Hq as ->.
  rewrite Hfeed, Hact', app_nil_r.
  rewrite run_to_exhaustion_delivers_all; [by rewrite He'|done|by eexists|done].
Qed.

End Buttons.

(** X13.  The clock of the replay starts when the data has loaded, not
    when Play is first pressed: the effect on [player] anchors the clock
    at load time, so the first [play] finds the clock at the first
    timestamp plus the wall-clock time that has passed since. *)
Theorem first_play_counts_from_load (results : list trip)
    (c l1 l2 w1 w2 w3 : Z) (h : handle) (e : event) (rest : list event)
    (b : Z) :
  Array.sort (compareFn timestamp) (results ≫= events_of) = e :: rest →
  timestamp e = Some b → l2 ≠ 0%Z →
  (Z.abs b <= maxTime)%Z → (Z.abs (b + (w1 - l2)) <= maxTime)%Z →
  let a := togglePlay w1 w2 w3 h (loaded results c l1 l2) in
  isPlaying a = true ∧
  ∃ pl, player (ui a) = Some pl ∧ timer pl = Some h ∧
        baseReal pl = Some w3 ∧
        baseSim pl = Some (b + (w1 - l2))%Z ∧
        simNow pl = Some (b + (w1 - l2))%Z.
Proof.
  intros Hs Hb Hl2 Hr1 Hr2 a.
  assert (∀ evs sn, getSimTime (A:=list event) w1
            {| events := evs; speed := 1%Q; timer := None;
               baseReal := Some l2; baseSim := Some b; pointer := 0;
               simNow := sn |} = Some (b + (w1 - l2))%Z) as Hg.
  { intros evs sn. unfold getSimTime. cbn [baseReal baseSim speed].
    destruct (Z.eqb_spec l2 0) as [|_]; [done|].
    cbn [ofTime fmap option_fmap option_map num_add].
    assert (inject_Z b + inject_Z (w1 - l2) * 1
            == inject_Z (b + (w1 - l2)))%Q as Hq.
    { rewrite inject_Z_plus. ring. }
    unfold newDate. rewrite (TimeClip_comp _ _ Hq).
    by apply (newDate_ofTime (Some _)). }
  assert (∀ evs sn, getSimTime (A:=list event) l1
            {| events := evs; speed := 1%Q; timer := None;
               baseReal := None; baseSim := Some b; pointer := 0;
               simNow := sn |} = Some b) as Hg0.
  { intros evs sn. unfold getSimTime. cbn [baseReal baseSim].
    by apply (newDate_ofTime (Some _)). }
  unfold a, loaded. cbv zeta. rewrite Hs.
  unfold togglePlay. cbn [ui player isPlaying speedSel].
  split; [done|]. eexists. split; [reflexivity|].
  unfold play, setSpeed, constructor, init. rewrite Hb.
  cbn [timer speed events baseReal baseSim pointer simNow default].
  by rewrite Hg0, Hg.
Qed.

(** * The views computed from the data *)

Section Tables.
Context {T V : Type}.
Variable sel : T → bool.
Variable key : T → string.
Variable val : T → V.

(** A table filled by a loop of assignments holds, under each key, the
    value of the last element of the list that was assigned to it. *)
Lemma foldl_assign_lookup (l : list T) (o : gmap string V) (k : string) :
  foldl (λ o t, if sel t then <[key t := val t]> o else o) o l !! k =
  match last (filter (λ t, sel t = true ∧ key t = k) l) with
  | Some t => Some (val t)
  | None => o !! k
  end.
Proof.
  induction l as [|t l IH] using rev_ind; [done|].
  rewrite foldl_snoc, filter_app, last_app.
  destruct (sel t) eqn:Es.
  - destruct (decide (key t = k)) as [<-|Hne].
    + rewrite filter_cons_True by done. cbn. by rewrite lookup_insert_eq.
    + rewrite filter_cons_False by (by intros [_ ?]). cbn.
      by rewrite lookup_insert_ne.
  - rewrite filter_cons_False by (intros [? _]; congruence). cbn. done.
Qed.

Lemma foldl_assign_size (l : list T) (o : gmap string V) :
  size (foldl (λ o t, if sel t then <[key t := val t]> o else o) o l)
  ≤ size o + length l.
Proof.
  induction l as [|t l IH] using rev_ind; [simpl; lia|].
  rewrite foldl_snoc, length_app. simpl.
  destruct (sel t); [|lia]. rewrite map_size_insert.
  destruct (_ !! key t); simpl; unfold id; lia.
Qed.

End Tables.

Lemma filter_length_mono {V : Type} (P Q : V → Prop)
    `{!∀ x, Decision (P x)} `{!∀ x, Decision (Q x)} (l : list V) :
  (∀ x, P x → Q x) → length (filter P l) ≤ length (filter Q l).
Proof.
  intros HPQ. induction l as [|x l IH]; [done|].
  rewrite !filter_cons. destruct (decide (P x)) as [HP|HP].
  - rewrite decide_True by auto. simpl. lia.
  - destruct (decide (Q x)); simpl; lia.
Qed.


Section Fleet.
Variable percent : nat → nat → Z.

Lemma perTrip_lookup (trips : list trip) (k : string) :
  perTrip (deriveFleetState percent trips) !! k =
  trip_info percent (maxPoints trips)
    <$> last (filter (λ t, trip_key t = k) trips).
Proof.
  cbn [deriveFleetState perTrip].
  rewrite (foldl_assign_lookup (λ _, true) trip_key
             (trip_info percent (maxPoints trips)) trips ∅ k).
  rewrite lookup_empty.
  assert (filter (λ t, true = true ∧ trip_key t = k) trips =
          filter (λ t, trip_key t = k) trips) as ->.
  { apply list_filter_iff. intros t. split; [by intros [_ ?]|done]. }
  by destruct (last _).
Qed.

(** Every entry of the table was computed from one of the trips. *)
Lemma perTrip_values (trips : list trip) (i : tripInfo) :
  i ∈ Object_values (perTrip (deriveFleetState percent trips)) →
  ∃ t, t ∈ trips ∧ i = trip_info percent (maxPoints trips) t.
Proof.
  unfold Object_values. intros ([k i'] & -> & Hin)%list_elem_of_fmap.
  apply elem_of_map_to_list in Hin. rewrite perTrip_lookup in Hin.
  destruct (last _) as [t|] eqn:El; [|done]. simpl in Hin.
  exists t. split; [|by simplify_eq].
  apply last_Some_elem_of in El. by apply list_elem_of_filter in El as [_ ?].
Qed.

Lemma Object_values_length {V : Type} (o : gmap string V) :
  length (Object_values o) = size o.
Proof. unfold Object_values. by rewrite length_fmap, length_map_to_list. Qed.

(** X15.  The figures of the fleet never exceed the number of trips, and
    the trips at 80% or more are among those at 50% or more: each count
    is taken over the entries of [perTrip], of which there is one per
    trip id, so trips that share an id count once. *)
Theorem fleet_counts_bounded (trips : list trip) :
  let fs := deriveFleetState percent trips in
  pct80 fs ≤ pct50 fs ∧
  pct50 fs ≤ size (perTrip fs) ∧
  cancelledTrips fs ≤ size (perTrip fs) ∧
  completedTrips fs ≤ size (perTrip fs) ∧
  size (perTrip fs) ≤ total fs ∧
  total fs = length trips.
Proof.
  cbn zeta.
  cbn [deriveFleetState pct80 pct50 cancelledTrips completedTrips total
       perTrip].
  set (table := foldl _ ∅ trips).
  split_and!; try (etrans; [apply length_filter|];
                   by rewrite Object_values_length).
  - apply filter_length_mono. intros i. lia.
  - pose proof (foldl_assign_size (λ _, true) trip_key
                  (trip_info percent (maxPoints trips)) trips ∅) as H.
    rewrite map_size_empty in H. exact H.
  - done.
Qed.


Lemma maxPoints_fold (trips : list trip) (m : nat) :
  let r := foldl (λ m t, Nat.max m (length (location_pings (events_of t))))
             m trips in
  m ≤ r ∧
  (∀ t, t ∈ trips → length (location_pings (events_of t)) ≤ r) ∧
  (r = m ∨ ∃ t, t ∈ trips ∧ length (location_pings (events_of t)) = r).
Proof.
  revert m. induction trips as [|t trips IH]; intros m; cbn zeta.
  - simpl. split_and!; [done| |by left]. intros t Ht. by apply elem_of_nil in Ht.
  - simpl. destruct (IH (Nat.max m (length (location_pings (events_of t)))))
      as (H1 & H2 & H3). cbn zeta in *.
    split_and!; [lia| |].
    + intros t' [->|Ht']%elem_of_cons; [lia|by apply H2].
    + destruct H3 as [->|(t' & Ht' & <-)].
      * destruct (Nat.max_spec m (length (location_pings (events_of t))))
          as [[_ ->]|[_ ->]]; [right; exists t; split; [left|done]|by left].
      * right. exists t'. split; [by right|done].
Qed.

(** X17.  Progress is measured against the trip with the most location
    pings: no trip has more pings than [maxPoints]; while no trip has any
    ping every progress is 0 and nothing counts as 50% or 80% done; and
    as soon as there is a ping, a trip with the most pings stands at
    100%. *)
Theorem progress_against_longest_trip (trips : list trip) :
  (∀ n, 0 < n → percent n n = 100%Z) →
  let fs := deriveFleetState percent trips in
  (∀ t, t ∈ trips →
        count (trip_info percent (maxPoints trips) t) ≤ maxPoints trips) ∧
  (maxPoints trips = 0 →
   (∀ k i, perTrip fs !! k = Some i → progress i = 0%Z) ∧
   pct50 fs = 0 ∧ pct80 fs = 0) ∧
  (0 < maxPoints trips →
   ∃ t, t ∈ trips ∧
        count (trip_info percent (maxPoints trips) t) = maxPoints trips ∧
        progress (trip_info percent (maxPoints trips) t) = 100%Z).
Proof.
  intros Hsame fs.
  destruct (maxPoints_fold trips 0) as (_ & Hle & Hmax).
  fold (maxPoints trips) in Hle, Hmax.
  split_and!.
  - intros t Ht. by apply Hle.
  - intros H0.
    assert (∀ i, i ∈ Object_values (perTrip fs) → progress i = 0%Z) as Hall.
    { intros i (t & _ & ->)%perTrip_values. cbn. by rewrite H0. }
    split_and!.
    + intros k i Hi. apply Hall. unfold Object_values.
      apply list_elem_of_fmap. exists (k, i). split; [done|].
      by apply elem_of_map_to_list.
    + cbn [fs deriveFleetState pct50]. fold (perTrip fs).
      rewrite (proj2 (length_zero_iff_nil _)); [done|].
      apply elem_of_nil_inv. intros i [H50 Hi]%list_elem_of_filter.
      rewrite (Hall i Hi) in H50. lia.
    + cbn [fs deriveFleetState pct80]. fold (perTrip fs).
      rewrite (proj2 (length_zero_iff_nil _)); [done|].
      apply elem_of_nil_inv. intros i [H80 Hi]%list_elem_of_filter.
      rewrite (Hall i Hi) in H80. lia.
  - intros Hpos. destruct Hmax as [E|(t & Ht & E)]; [lia|].
    exists t. split_and!; [done|done|]. cbn. rewrite E.
    destruct (maxPoints trips) as [|m] eqn:Em; [lia|]. apply Hsame. lia.
Qed.

(** X18.  The progress bar of a trip card is either empty or full: the
    number of location pings is divided by itself, so the card shows 0
    for a trip without pings and 100 for every other trip. *)
Theorem trip_card_progress (t : trip) :
  (∀ n, 0 < n → percent n n = 100%Z) → percent 0 1 = 0%Z →
  card_total (TripCard percent t) = length (location_pings (events_of t)) ∧
  card_progress (TripCard percent t) =
    if decide (card_total (TripCard percent t) = 0) then 0%Z else 100%Z.
Proof.
  intros Hsame Hzero. split; [done|]. cbn.
  destruct (length (location_pings (events_of t))) as [|n] eqn:E.
  - by rewrite decide_True.
  - rewrite decide_False by done.
    replace (Nat.max 1 (S n)) with (S n) by lia. apply Hsame. lia.
Qed.

End Fleet.

Lemma percent_exact_same (n : nat) : 0 < n → percent_exact n n = 100%Z.
Proof.
  intros Hn. unfold percent_exact.
  replace (200 * Z.of_nat n + Z.of_nat n)%Z with (201 * Z.of_nat n)%Z by lia.
  rewrite Z.div_mul_cancel_r by lia. reflexivity.
Qed.

Lemma progress_against_longest_trip_witness :
  ∃ t, t ∈ sample_trips ∧
       count (trip_info percent_exact (maxPoints sample_trips) t) =
         maxPoints sample_trips ∧
       progress (trip_info percent_exact (maxPoints sample_trips) t) = 100%Z.
Proof.
  refine (proj2 (proj2 (progress_against_longest_trip percent_exact
            sample_trips percent_exact_same)) _).
  vm_compute. lia.
Defined.

Lemma trip_card_progress_witness :
  card_progress (TripCard percent_exact (Trip None None EmptyString)) = 0%Z.
Proof.
  exact (proj2 (trip_card_progress percent_exact (Trip None None EmptyString)
                  percent_exact_same eq_refl)).
Defined.


(** * The properties above, on the sample log *)

Lemma pointer_in_bounds_witness :
  pointer
    (exec_all id timestamp
       [Tick 6000; Seek 7000 (Some 20000%Z); Tick 7250; Seek 8000 None]
       sample_player).1 ≤ 3.
Proof.
  refine (proj2 (pointer_in_bounds id timestamp
    [Tick 6000; Seek 7000 (Some 20000%Z); Tick 7250; Seek 8000 None]
    sample_player _)).
  vm_compute. lia.
Defined.

Lemma tick_leaves_nothing_due_witness :
  date_le (timestamp ev_complete)
    (simNow (_tick id timestamp 5000 sample_player).1) = false.
Proof.
  apply (tick_leaves_nothing_due id timestamp 5000 sample_player 2 ev_complete).
  - vm_compute. repeat constructor.
  - vm_compute. lia.
  - reflexivity.
Defined.

Lemma ticks_after_seek_from_target_witness :
  Forall (λ e, date_ge (timestamp e) (Some 4000%Z) = true)
    (delivered
       (run_ticks id timestamp [2250; 9000]%Z
          (seek id timestamp 2000 (Some 4000%Z) sample_player)).2).
Proof.
  apply (ticks_after_seek_from_target id timestamp 2000 (Some 4000%Z)
           [2250; 9000]%Z sample_player).
  - vm_compute. repeat constructor.
  - vm_compute. discriminate.
Defined.

Lemma clock_monotone_witness : (1000 <= 2000)%Z.
Proof.
  apply (clock_monotone 2000 3000 1000 2000 sample_player).
  - vm_compute. discriminate.
  - lia.
  - reflexivity.
  - reflexivity.
Defined.

Lemma step_then_play_redelivers_witness :
  ∃ rest,
    delivered
      (fire id timestamp 2250
         (play 2000 2000 2000 2%positive None
            (seek id timestamp 1000 (Some 4000%Z)
               (pause (constructor sample_log None 1%Q 0))))).2
    = ev_ping :: rest.
Proof.
  refine (proj2 (proj2 (step_then_play_redelivers id timestamp
    1000 1000 1000 2000 2000 2000 2250 2%positive None
    {| player := Some (constructor sample_log None 1%Q 0);
       simTime := None; activity := [] |}
    (constructor sample_log None 1%Q 0) 1 ev_ping 5250
    _ _ _ _ _ _ _ _ _))).
  - reflexivity.
  - reflexivity.
  - reflexivity.
  - vm_compute. discriminate.
  - vm_compute. discriminate.
  - vm_compute. discriminate.
  - lia.
  - lia.
  - reflexivity.
Defined.

Lemma feed_is_last_300_witness :
  activity
    (ui (act_all id timestamp (TimerTick <$> [1250; 6000]%Z) sample_app))
  = take 300
      (reverse
         (delivered (run_ticks id timestamp [1250; 6000]%Z sample_player).2)
       ++ []).
Proof.
  refine (proj1 (proj2 (feed_is_last_300 id timestamp [1250; 6000]%Z
                          sample_app sample_player _ _))).
  - reflexivity.
  - simpl. lia.
Defined.

Lemma play_button_after_exhaustion_witness :
  isPlaying
    (togglePlay 13000 13000 13000 2%positive
       (timerTick id timestamp 12000 sample_app)) = false.
Proof.
  refine (proj1 (proj2 (proj2 (play_button_after_exhaustion id timestamp
    12000 13000 13000 13000 14000 14000 14000 2%positive 3%positive
    sample_app sample_player _ _ _ _)))).
  - reflexivity.
  - reflexivity.
  - by eexists.
  - vm_compute. lia.
Defined.

Lemma reset_replays_witness :
  activity (ui (reset id timestamp 20000
                  (timerTick id timestamp 12000 sample_app))) = [].
Proof.
  refine (proj1 (proj2 (reset_replays id timestamp
    20000 21000 21000 21000 2%positive [33000]%Z
    (timerTick id timestamp 12000 sample_app)
    (_tick id timestamp 12000 sample_player).1
    ev_start [ev_ping; ev_complete] 0 _ _ _ _ _))).
  - reflexivity.
  - reflexivity.
  - reflexivity.
  - reflexivity.
  - vm_compute. discriminate.
Defined.

Lemma first_play_counts_from_load_witness :
  isPlaying
    (togglePlay 5500 5500 5500 1%positive (loaded sample_trips 400 500 500))
  = true.
Proof.
  refine (proj1 (first_play_counts_from_load sample_trips
    400 500 500 5500 5500 5500 1%positive
    ev_start [ev_ping; ev_complete] 0 _ _ _ _ _)).
  - reflexivity.
  - reflexivity.
  - discriminate.
  - vm_compute. discriminate.
  - vm_compute. discriminate.
Defined.

(** Loaded at 500 and started five seconds later, the replay begins five
    seconds into the log: "start" and "ping" arrive with the first tick. *)
Example late_first_play :
  activity
    (ui (act_all id timestamp [TogglePlay 5500 5500 5500 1%positive;
                               TimerTick 5750]
           (loaded sample_trips 400 500 500)))
  = [ev_ping; ev_start].
Proof. reflexivity. Qed.

(** Two pings of one trip in the feed: the table of markers keeps the
    older one. *)
Example marker_is_oldest_ping :
  let ping2 := Event (Some 6000%Z) "location_ping"%string "trip_1"%string in
  latestByTrip [ping2; ev_ping; ev_start] !! "trip_1"%string = Some ev_ping.
Proof. reflexivity. Qed.

(** * An invalid clock *)

Section InvalidClock.
Context {A R : Type}.
Variable elems : A → list R.
Variable date : R → time.
Implicit Types p : EventPlayer A.

Lemma getSimTime_NaN (now : Z) p : baseSim p = None → getSimTime now p = None.
Proof.
  intros Hb. unfold getSimTime. rewrite Hb.
  destruct (baseReal p) as [a|]; [by destruct (a =? 0)%Z|done].
Qed.

Lemma tick_loop_NaN (pending : list R) (ptr : nat) :
  tick_loop date None pending ptr = (ptr, []).
Proof.
  destruct pending as [|e rest]; [done|]. simpl.
  by destruct (date e).
Qed.

Lemma exec_NaN (c : call) p :
  baseSim p = None → match c with Seek _ _ => False | _ => True end →
  baseSim (exec elems date c p).1 = None ∧
  pointer (exec elems date c p).1 = pointer p ∧
  delivered (exec elems date c p).2 = [].
Proof.
  intros Hb Hc. destruct c; try done; cbn [exec fst snd].
  - unfold play, setSpeed. cbn. rewrite (getSimTime_NaN _ _ Hb).
    by destruct (timer p).
  - by destruct (pause_fields p) as (_ & _ & _ & -> & -> & _).
  - unfold setSpeed. cbn. by rewrite (getSimTime_NaN _ _ Hb).
  - unfold fire. destruct (timer p); [|done].
    unfold _tick. rewrite (getSimTime_NaN _ _ Hb), tick_loop_NaN.
    cbn [fst snd]. split_and!; [|by case_bool_decide; unfold pause; cbn; destruct (timer p)|done].
    case_bool_decide; [|done].
    by destruct (pause_fields
                   {| events := events p; speed := speed p; timer := timer p;
                      baseReal := baseReal p; baseSim := baseSim p;
                      pointer := pointer p; simNow := None |})
      as (_ & _ & _ & -> & _).
Qed.

(** X19.  An invalid clock stays invalid and delivers nothing: once the
    anchored time is NaN (a start time or a seek target that does not
    parse, an unreadable first timestamp), [play], [pause], [setSpeed]
    and ticks leave it NaN, the clock reads NaN at every instant, the
    pointer does not move and no record is delivered, until the next
    [seek]. *)
Theorem invalid_clock_delivers_nothing (cs : list call) p :
  baseSim p = None → no_seek cs →
  let r := exec_all elems date cs p in
  baseSim r.1 = None ∧ (∀ now, getSimTime now r.1 = None) ∧
  pointer r.1 = pointer p ∧ delivered r.2 = [].
Proof.
  intros Hb Hcs. cbn zeta. revert p Hb.
  induction Hcs as [|c cs Hc Hcs IH]; intros p Hb; simpl.
  - split_and!; [done| |done..]. intros now. by apply getSimTime_NaN.
  - destruct (exec_NaN c p Hb Hc) as (Hb1 & Hp1 & Hd1).
    destruct (exec elems date c p) as [p1 o1]. simpl in *.
    destruct (IH p1 Hb1) as (Hb2 & Hg2 & Hp2 & Hd2).
    destruct (exec_all elems date cs p1) as [p2 o2]. simpl in *.
    split_and!; [done|done|congruence|].
    by rewrite delivered_app, Hd1, Hd2.
Qed.

End InvalidClock.

Lemma invalid_clock_delivers_nothing_witness :
  delivered
    (exec_all id timestamp
       [Play 1000 1000 1000 1%positive None; Tick 1250; Tick 90000]
       (seek id timestamp 500 None (constructor sample_log None 1%Q 0))).2
  = [].
Proof.
  refine (proj2 (proj2 (proj2 (invalid_clock_delivers_nothing id timestamp
    [Play 1000 1000 1000 1%positive None; Tick 1250; Tick 90000]
    (seek id timestamp 500 None (constructor sample_log None 1%Q 0)) _ _)))).
  - reflexivity.
  - repeat constructor.
Defined.

(** * The figures of the fleet, trip by trip *)

Section FleetExact.
Variable percent : nat → nat → Z.




End FleetExact.

